(** * The device broker of fMBT's remotedevices server

    A shallow embedding of [python3-remotedevices/remotedevices_server.py]:
    the module globals ([whitelist], [blacklist], [_g_device_classes],
    [_g_device_id_class]), the plugin interface [DeviceClass] and the
    registry class [Devices], followed by the properties of the leasing
    protocol and of reconciliation.

    Python dictionaries keep insertion order, and [_wolock_release] depends on
    it when it looks for an acquirer, so a dictionary is an association list
    with the update discipline of a Python [dict].  Methods run in a monad
    that threads the interpreter state and carries raised exceptions together
    with the state reached when they were raised. *)

From Stdlib Require Import String Ascii List ZArith Bool Lia Arith.
Import ListNotations.
Open Scope string_scope.
Open Scope list_scope.
Open Scope Z_scope.

Set Implicit Arguments.

(** ** Keys with a boolean equality *)

Class EqKey (K : Type) := {
  keqb : K -> K -> bool;
  keqb_eq : forall a b, keqb a b = true <-> a = b
}.

Lemma keqb_refl {K} `{EqKey K} (a : K) : keqb a a = true.
Proof. apply keqb_eq; reflexivity. Qed.

Lemma keqb_neq {K} `{EqKey K} (a b : K) : keqb a b = false <-> a <> b.
Proof.
  split; intro Hn.
  - intro E. apply keqb_eq in E. congruence.
  - destruct (keqb a b) eqn:E; [apply keqb_eq in E; contradiction | reflexivity].
Qed.

#[export] Instance EqKey_string : EqKey string :=
  {| keqb := String.eqb; keqb_eq := String.eqb_eq |}.

(** ** Python dictionaries *)

Module Dict.
Section Ops.
Context {K V : Type} `{EqKey K}.

Definition t := list (K * V).

(** [d.get(k)] *)
Fixpoint get (d : t) (k : K) : option V :=
  match d with
  | [] => None
  | (k', v) :: d' => if keqb k k' then Some v else get d' k
  end.

(** [k in d] *)
Definition mem (d : t) (k : K) : bool :=
  match get d k with Some _ => true | None => false end.

(** [d[k] = v]: an existing key keeps its position, a new one goes last. *)
Fixpoint set (d : t) (k : K) (v : V) : t :=
  match d with
  | [] => [(k, v)]
  | (k', v') :: d' =>
      if keqb k k' then (k', v) :: d' else (k', v') :: set d' k v
  end.

(** [del d[k]] on a dictionary that holds [k]. *)
Fixpoint del (d : t) (k : K) : t :=
  match d with
  | [] => []
  | (k', v') :: d' => if keqb k k' then del d' k else (k', v') :: del d' k
  end.

Definition keys (d : t) : list K := map fst d.
Definition values (d : t) : list V := map snd d.

(** The representation invariant of a dictionary: no key twice. *)
Definition wf (d : t) : Prop := NoDup (keys d).
End Ops.
Arguments t : clear implicits.
End Dict.

Abbreviation dict := Dict.t.

(** ** Data model *)

(** [DeviceInfo = namedtuple("DeviceInfo", ["id", "type", "sw", "hw", "display"])] *)
Record DeviceInfo := mkDeviceInfo {
  id : string;
  type : string;
  sw : string;
  hw : string;
  display : string
}.

Definition DeviceInfo_eqb (a b : DeviceInfo) : bool :=
  String.eqb (id a) (id b) && String.eqb (type a) (type b)
  && String.eqb (sw a) (sw b) && String.eqb (hw a) (hw b)
  && String.eqb (display a) (display b).

Lemma DeviceInfo_eqb_eq a b : DeviceInfo_eqb a b = true <-> a = b.
Proof.
  unfold DeviceInfo_eqb; destruct a, b; simpl.
  rewrite !andb_true_iff, !String.eqb_eq.
  split; [intros [[[[-> ->] ->] ->] ->]; reflexivity | intros E; inversion E; auto].
Qed.

#[export] Instance EqKey_DeviceInfo : EqKey DeviceInfo :=
  {| keqb := DeviceInfo_eqb; keqb_eq := DeviceInfo_eqb_eq |}.

(** The object a plugin's [adopt] allocates, through which the device is
    operated.  It is opaque to the registry. *)
Inductive DeviceObj := Handle (n : nat).

(** Readings of [time.time()].  The registry only stores them and subtracts
    two of them for a log line. *)
Definition timestamp := Z.

(** The texts of the [ValueError]s the registry raises. *)
Inductive message :=
| unknown_device (key : string)
| not_acquired (key : string)
| has_not_acquired (acquirer : option string) (key : string)
| unknown_acquirer (acquirer : string)
| not_found (serialNumber : string)
| blacklisted (serialNumber : string)
| already_added (serialNumber : string)
| error_accessing (serialNumber : string)
| is_busy (serialNumber : string)
| already_blacklisted (serialNumber : string)
| not_blacklisted (serialNumber : string).

(** Exceptions: the registry's [ValueError]s, the [KeyError] of a failed
    subscript or [del], [re.error], and what a plugin raises: an exception
    that derives from [Exception], or one that derives from [BaseException]
    only, such as [KeyboardInterrupt] or [SystemExit]. *)
Inductive exn :=
| ValueError (m : message)
| KeyError
| ReError
| PluginException (what : string)
| PluginBaseException (what : string).

(** [isinstance(e, Exception)] *)
Definition is_Exception (e : exn) : bool :=
  match e with
  | PluginBaseException _ => false
  | _ => true
  end.

Inductive Result (A : Type) :=
| Ok (a : A)
| Raise (e : exn).
Arguments Ok {A} a.
Arguments Raise {A} e.

(** ** Discovery plugins *)

(** An instance of a subclass of [DeviceClass].  [obj_id] stands for the
    identity of the Python object, which [rescan] compares with [!=];
    [plugin_name] is the module the class comes from.  [adopt] gives its
    pair in the order in which [_wolock_add] unpacks it and [_devinfo]
    keeps it, the device object first and the [DeviceInfo] second;
    [abandon] takes them as [_wolock_remove] passes them. *)
Record DeviceClass := mkDeviceClass {
  obj_id : nat;
  plugin_name : string;
  maxRefCount : Z;
  dc_rescan : Result (list string);
  adopt : string -> Result (DeviceObj * DeviceInfo);
  abandon : DeviceInfo -> DeviceObj -> Result unit
}.

(** ** Lines written with [daemon_log] *)

Inductive log_event :=
| log_rescanning_failed (plugin : string)
| log_rescan_collision (deviceId plugin other : string)
| log_rescan_kept (serialNumber : string)
| log_rescan_found (serialNumber : string)
| log_rescan_failed_connecting (serialNumber : string)
| log_rescan_forgot (serialNumber : string)
| log_acquire_blocked
| log_acquired (acquirer key : string)
| log_released (acquirer key : string) (held : Z)
| log_removed (serialNumber : string).

(** ** Interpreter state: module globals and the fields of [Devices] *)

Record State := mkState {
  whitelist : list string;
  blacklist : list string;
  _g_device_classes : list DeviceClass;
  _g_device_id_class : dict string DeviceClass;
  _devinfo : dict string (DeviceObj * DeviceInfo);
  _refcount : dict string Z;
  _acquirer : dict string (dict string (list timestamp));
  _infos : dict DeviceInfo string;
  daemon_log : list log_event
}.

Definition with_whitelist (v : list string) (s : State) : State :=
  mkState v (blacklist s) (_g_device_classes s) (_g_device_id_class s)
    (_devinfo s) (_refcount s) (_acquirer s) (_infos s) (daemon_log s).

Definition with_blacklist (v : list string) (s : State) : State :=
  mkState (whitelist s) v (_g_device_classes s) (_g_device_id_class s)
    (_devinfo s) (_refcount s) (_acquirer s) (_infos s) (daemon_log s).

Definition with_g_device_id_class (v : dict string DeviceClass) (s : State) : State :=
  mkState (whitelist s) (blacklist s) (_g_device_classes s) v
    (_devinfo s) (_refcount s) (_acquirer s) (_infos s) (daemon_log s).

Definition with_devinfo (v : dict string (DeviceObj * DeviceInfo)) (s : State) : State :=
  mkState (whitelist s) (blacklist s) (_g_device_classes s) (_g_device_id_class s)
    v (_refcount s) (_acquirer s) (_infos s) (daemon_log s).

Definition with_refcount (v : dict string Z) (s : State) : State :=
  mkState (whitelist s) (blacklist s) (_g_device_classes s) (_g_device_id_class s)
    (_devinfo s) v (_acquirer s) (_infos s) (daemon_log s).

Definition with_acquirer (v : dict string (dict string (list timestamp))) (s : State) : State :=
  mkState (whitelist s) (blacklist s) (_g_device_classes s) (_g_device_id_class s)
    (_devinfo s) (_refcount s) v (_infos s) (daemon_log s).

Definition with_infos (v : dict DeviceInfo string) (s : State) : State :=
  mkState (whitelist s) (blacklist s) (_g_device_classes s) (_g_device_id_class s)
    (_devinfo s) (_refcount s) (_acquirer s) v (daemon_log s).

Definition with_log (v : list log_event) (s : State) : State :=
  mkState (whitelist s) (blacklist s) (_g_device_classes s) (_g_device_id_class s)
    (_devinfo s) (_refcount s) (_acquirer s) (_infos s) v.

(** ** The monad of methods *)

Definition M (A : Type) : Type := State -> Result A * State.

Definition ret {A} (a : A) : M A := fun s => (Ok a, s).

Definition bind {A B} (m : M A) (f : A -> M B) : M B :=
  fun s => match m s with
           | (Ok a, s') => f a s'
           | (Raise e, s') => (Raise e, s')
           end.

Definition raise {A} (e : exn) : M A := fun s => (Raise e, s).

(** [try: m  except Exception as e: h e]: an exception that does not derive
    from [Exception] is not caught. *)
Definition try_except {A} (m : M A) (h : exn -> M A) : M A :=
  fun s => match m s with
           | (Ok a, s') => (Ok a, s')
           | (Raise e, s') => if is_Exception e then h e s' else (Raise e, s')
           end.

Definition gets {A} (f : State -> A) : M A := fun s => (Ok (f s), s).
Definition modify (f : State -> State) : M unit := fun s => (Ok tt, f s).

(** A plugin call, or any other computation that does not touch the state. *)
Definition lift {A} (r : Result A) : M A := fun s => (r, s).

(** A subscript [d[k]]: [KeyError] when the key is absent. *)
Definition subscript {A} (o : option A) : M A :=
  match o with Some a => ret a | None => raise KeyError end.

Notation "x <- m ;; k" := (bind m (fun x => k))
  (at level 61, m at next level, right associativity).
Notation "m ;;; k" := (bind m (fun _ => k))
  (at level 61, right associativity).

Definition daemon_log_line (e : log_event) : M unit :=
  modify (fun s => with_log (daemon_log s ++ [e]) s).

(** [for x in xs: body x] *)
Fixpoint for_each {A} (xs : list A) (body : A -> M unit) : M unit :=
  match xs with
  | [] => ret tt
  | x :: xs' => body x ;;; for_each xs' body
  end.

(** [if b: raise e] *)
Definition raise_if (b : bool) (e : exn) : M unit :=
  if b then raise e else ret tt.

(** [del d[k]] raises [KeyError] when [k] is absent. *)
Definition del_item {K V} `{EqKey K} (k : K)
    (proj : State -> dict K V) (upd : dict K V -> State -> State) : M unit :=
  d <- gets proj ;;
  if Dict.mem d k then modify (upd (Dict.del d k)) else raise KeyError.

(** ** Python builtins the registry uses *)

Definition mem_string (x : string) (l : list string) : bool :=
  existsb (String.eqb x) l.

(** [sorted] on strings: Python orders [str] by code point, which on the
    UTF-8 bytes of a [string] is the order of [String.leb]. *)
Fixpoint insert_sorted (x : string) (l : list string) : list string :=
  match l with
  | [] => [x]
  | y :: l' => if String.leb x y then x :: l else y :: insert_sorted x l'
  end.

Definition sorted (l : list string) : list string :=
  fold_right insert_sorted [] l.

(** [set.add] and the builder of a set from a sequence, a set being kept as
    a list without repetition. *)
Definition set_add (x : string) (l : list string) : list string :=
  if mem_string x l then l else l ++ [x].

Definition set_of (l : list string) : list string :=
  fold_left (fun acc x => set_add x acc) l [].

(** [str.lower], on the ASCII letters. *)
Definition lower_ascii (c : ascii) : ascii :=
  let n := nat_of_ascii c in
  if (Nat.leb 65 n && Nat.leb n 90)%bool then ascii_of_nat (n + 32) else c.

Fixpoint lower (s : string) : string :=
  match s with
  | EmptyString => EmptyString
  | String c s' => String (lower_ascii c) (lower s')
  end.

(** [str] of a [bool] *)
Definition str_bool (b : bool) : string := if b then "True" else "False".

(** [list.remove]: drops the first occurrence. *)
Fixpoint list_remove (x : string) (l : list string) : list string :=
  match l with
  | [] => []
  | y :: l' => if String.eqb x y then l' else y :: list_remove x l'
  end.

(** ** [Devices] *)

(** [Devices.reset] *)
Definition reset : M unit :=
  modify (fun s => with_infos [] (with_acquirer [] (with_refcount [] (with_devinfo [] s)))).

(** [Devices._validate] *)
Definition _validate (key : string) : M unit :=
  rc <- gets _refcount ;;
  raise_if (negb (Dict.mem rc key)) (ValueError (unknown_device key)).

(** [Devices.available] *)
Definition available (key : string) : M bool :=
  _validate key ;;;
  cls <- gets _g_device_id_class ;;
  dc <- subscript (Dict.get cls key) ;;
  let maxRefCount := maxRefCount dc in
  if maxRefCount =? -1 then ret true
  else
    rcs <- gets _refcount ;;
    rc <- subscript (Dict.get rcs key) ;;
    ret (rc <? maxRefCount).

(** [Devices.all] *)
Definition all : M (list string) :=
  rcs <- gets _refcount ;; ret (Dict.keys rcs).

(** [Devices._wolock_acquire]; [now] is the reading of [time.time()]. *)
Definition _wolock_acquire (now : timestamp) (key : string) (acquirer : string) : M unit :=
  rcs <- gets _refcount ;;
  rc <- subscript (Dict.get rcs key) ;;
  modify (with_refcount (Dict.set rcs key (rc + 1))) ;;;
  let timestamp := now in
  acq <- gets _acquirer ;;
  match Dict.get acq acquirer with
  | Some held =>
      match Dict.get held key with
      | Some stamps =>
          modify (with_acquirer (Dict.set acq acquirer (Dict.set held key (stamps ++ [timestamp]))))
      | None =>
          modify (with_acquirer (Dict.set acq acquirer (Dict.set held key [timestamp])))
      end
  | None => modify (with_acquirer (Dict.set acq acquirer [(key, [timestamp])]))
  end.

(** The loop of [_wolock_release] that finds an acquirer automatically: the
    first acquirer, in the order of the dictionary, with a lease on [key]. *)
Fixpoint find_acquirer (acq : dict string (dict string (list timestamp)))
    (key : string) : option string :=
  match acq with
  | [] => None
  | (acqid, held) :: rest =>
      match Dict.get held key with
      | Some (_ :: _) => Some acqid
      | _ => find_acquirer rest key
      end
  end.

(** [Devices._wolock_release].  An [acquirer] of [None] asks for the
    automatic choice; when nobody is found it stays [None], which is no key
    of [_acquirer]. *)
Definition _wolock_release (now : timestamp) (key : string) (acquirer : option string) : M unit :=
  rcs <- gets _refcount ;;
  rc <- subscript (Dict.get rcs key) ;;
  raise_if (rc =? 0) (ValueError (not_acquired key)) ;;;
  let released_ts := now in
  acq <- gets _acquirer ;;
  let acquirer :=
    match acquirer with
    | None => find_acquirer acq key
    | Some a => Some a
    end in
  match acquirer with
  | None => raise (ValueError (has_not_acquired None key))
  | Some a =>
      match Dict.get acq a with
      | None => raise (ValueError (has_not_acquired (Some a) key))
      | Some held =>
          match Dict.get held key with
          | None | Some [] => raise (ValueError (has_not_acquired (Some a) key))
          | Some stamps =>
              modify (with_refcount (Dict.set rcs key (rc - 1))) ;;;
              let acquired_ts := last stamps 0 in
              let stamps' := removelast stamps in
              (match stamps' with
               | [] =>
                   let held' := Dict.del held key in
                   match held' with
                   | [] => modify (with_acquirer (Dict.del acq a))
                   | _ => modify (with_acquirer (Dict.set acq a held'))
                   end
               | _ => modify (with_acquirer (Dict.set acq a (Dict.set held key stamps')))
               end) ;;;
              daemon_log_line (log_released a key (released_ts - acquired_ts))
          end
      end
  end.

(** [Devices.release] *)
Definition release (now : timestamp) (key : string) (acquirer : option string) : M unit :=
  _validate key ;;;
  _wolock_release now key acquirer.

(** [Devices.release_all]; one reading of the clock serves all the releases
    of the call. *)
Definition release_all (now : timestamp) (acquirer : string) : M unit :=
  acq <- gets _acquirer ;;
  raise_if (negb (Dict.mem acq acquirer)) (ValueError (unknown_acquirer acquirer)) ;;;
  acq <- gets _acquirer ;;
  held <- subscript (Dict.get acq acquirer) ;;
  for_each (Dict.keys held) (fun key => _wolock_release now key (Some acquirer)).

(** What a method hands back to its caller when that is a device or its
    description: the object a plugin allocated, or the dictionary [info]
    builds from a [DeviceInfo]. *)
Inductive value :=
| device_object (d : DeviceObj)
| info_dict (i : DeviceInfo).

(** [Devices.info] *)
Definition info (key : string) : M value :=
  _validate key ;;;
  di <- gets _devinfo ;;
  e <- subscript (Dict.get di key) ;;
  ret (info_dict (snd e)).

(** [Devices.acquired] *)
Definition acquired (key : string) : M value :=
  rcs <- gets _refcount ;;
  rc <- subscript (Dict.get rcs key) ;;
  if rc >? 0 then
    di <- gets _devinfo ;;
    e <- subscript (Dict.get di key) ;;
    ret (device_object (fst e))
  else raise (ValueError (not_acquired key)).

(** [Devices.acquirers] *)
Definition acquirers : M (list string) :=
  acq <- gets _acquirer ;; ret (sorted (Dict.keys acq)).

(** [Devices.acquisitions] *)
Definition acquisitions : M (list (string * string * list timestamp)) :=
  acq <- gets _acquirer ;;
  ret (flat_map
         (fun acquirer =>
            match Dict.get acq acquirer with
            | Some held => map (fun kv => (acquirer, fst kv, snd kv)) held
            | None => []
            end)
         (sorted (Dict.keys acq))).

(** [Devices._wolock_add] *)
Definition _wolock_add (serialNumber : string) : M unit :=
  cls <- gets _g_device_id_class ;;
  dc <- subscript (Dict.get cls serialNumber) ;;
  di <- lift (adopt dc serialNumber) ;;
  let (d, i) := di in
  modify (fun s => with_devinfo (Dict.set (_devinfo s) serialNumber (d, i)) s) ;;;
  modify (fun s => with_refcount (Dict.set (_refcount s) serialNumber 0) s) ;;;
  modify (fun s => with_infos (Dict.set (_infos s) i serialNumber) s).

(** [Devices.add] *)
Definition add (serialNumber : string) : M unit :=
  cls <- gets _g_device_id_class ;;
  raise_if (negb (Dict.mem cls serialNumber)) (ValueError (not_found serialNumber)) ;;;
  bl <- gets blacklist ;;
  rcs <- gets _refcount ;;
  if mem_string serialNumber bl then raise (ValueError (blacklisted serialNumber))
  else if Dict.mem rcs serialNumber then raise (ValueError (already_added serialNumber))
  else
    try_except (_wolock_add serialNumber)
      (fun e => raise (ValueError (error_accessing serialNumber))).

(** [Devices._wolock_remove] *)
Definition _wolock_remove (now : timestamp) (serialNumber : string) : M unit :=
  _validate serialNumber ;;;
  rcs <- gets _refcount ;;
  rc <- subscript (Dict.get rcs serialNumber) ;;
  (if rc >? 0 then _wolock_release now serialNumber None else ret tt) ;;;
  di <- gets _devinfo ;;
  e <- subscript (Dict.get di serialNumber) ;;
  let (d, i) := e in
  cls <- gets _g_device_id_class ;;
  dc <- subscript (Dict.get cls serialNumber) ;;
  lift (abandon dc i d) ;;;
  di <- gets _devinfo ;;
  e <- subscript (Dict.get di serialNumber) ;;
  let (d, i) := e in
  del_item serialNumber _devinfo with_devinfo ;;;
  del_item serialNumber _refcount with_refcount ;;;
  del_item i _infos with_infos ;;;
  daemon_log_line (log_removed serialNumber).

(** [Devices.remove] *)
Definition remove (now : timestamp) (serialNumber : string) (force : bool) : M unit :=
  _validate serialNumber ;;;
  rcs <- gets _refcount ;;
  rc <- subscript (Dict.get rcs serialNumber) ;;
  raise_if ((rc >? 0) && negb force) (ValueError (is_busy serialNumber)) ;;;
  _wolock_remove now serialNumber.

(** [Devices.blacklist_include] *)
Definition blacklist_include (serialNumber : string) : M unit :=
  bl <- gets blacklist ;;
  if mem_string serialNumber bl then raise (ValueError (already_blacklisted serialNumber))
  else modify (with_blacklist (bl ++ [serialNumber])).

(** [Devices.blacklist_exclude] *)
Definition blacklist_exclude (serialNumber : string) : M unit :=
  bl <- gets blacklist ;;
  raise_if (negb (mem_string serialNumber bl)) (ValueError (not_blacklisted serialNumber)) ;;;
  modify (with_blacklist (list_remove serialNumber bl)).

(** [for x in xs: acc = body acc x], for a loop that updates a local. *)
Fixpoint for_fold {A B} (xs : list A) (acc : B) (body : B -> A -> M B) : M B :=
  match xs with
  | [] => ret acc
  | x :: xs' => acc' <- body acc x ;; for_fold xs' acc' body
  end.

(** The body of the loop of [rescan] over [_g_device_classes]:
    [serialNumbers] is the set collected so far. *)
Definition rescan_device_class (serialNumbers : list string) (dc : DeviceClass)
    : M (list string) :=
  deviceIds <-
    try_except (lift (dc_rescan dc))
      (fun e =>
         daemon_log_line (log_rescanning_failed (plugin_name dc)) ;;;
         ret []) ;;
  for_fold deviceIds serialNumbers
    (fun serialNumbers deviceId =>
       (if mem_string deviceId serialNumbers then
          cls <- gets _g_device_id_class ;;
          other <- subscript (Dict.get cls deviceId) ;;
          if negb (Nat.eqb (obj_id other) (obj_id dc)) then
            daemon_log_line
              (log_rescan_collision deviceId (plugin_name dc) (plugin_name other))
          else ret tt
        else ret tt) ;;;
       modify (fun s =>
         with_g_device_id_class (Dict.set (_g_device_id_class s) deviceId dc) s) ;;;
       ret (set_add deviceId serialNumbers)).

(** The filters of [rescan]: [if whitelist: ...] and [if blacklist: ...]. *)
Definition filter_lists (wl bl serialNumbers : list string) : list string :=
  let serialNumbers :=
    match wl with
    | [] => serialNumbers
    | _ => filter (fun x => mem_string x wl) serialNumbers
    end in
  match bl with
  | [] => serialNumbers
  | _ => filter (fun x => negb (mem_string x bl)) serialNumbers
  end.

(** The body of the loop of [rescan] that finds new devices. *)
Definition rescan_find_new (serialNumber : string) : M unit :=
  di <- gets _devinfo ;;
  if Dict.mem di serialNumber then
    daemon_log_line (log_rescan_kept serialNumber)
  else
    try_except
      (_wolock_add serialNumber ;;;
       daemon_log_line (log_rescan_found serialNumber))
      (fun e => daemon_log_line (log_rescan_failed_connecting serialNumber)).

(** The body of the loop of [rescan] that forgets detached devices. *)
Definition rescan_forget (now : timestamp) (serialNumbers : list string)
    (serialNumber : string) : M unit :=
  if negb (mem_string serialNumber serialNumbers) then
    _wolock_remove now serialNumber ;;;
    daemon_log_line (log_rescan_forgot serialNumber)
  else ret tt.

(** [Devices.rescan]; [now] is the reading of the clock the forced releases
    of the pass see. *)
Definition rescan (now : timestamp) : M unit :=
  dcs <- gets _g_device_classes ;;
  serialNumbers <- for_fold dcs [] rescan_device_class ;;
  wl <- gets whitelist ;;
  bl <- gets blacklist ;;
  let serialNumbers := filter_lists wl bl serialNumbers in
  for_each (sorted serialNumbers) rescan_find_new ;;;
  di <- gets _devinfo ;;
  for_each (Dict.keys di) (rescan_forget now serialNumbers).

(** [Devices.__init__] *)
Definition init (now : timestamp) : M unit :=
  reset ;;; rescan now.

(** ** Matching and acquisition *)

Section Matching.

(** [re.match pattern s] as a truth value; [None] when the pattern does not
    compile and [re.error] is raised. *)
Variable re_match : string -> string -> option bool.

(** [k not in matchArgs or re.match(matchArgs[k], field)] *)
Definition regexp_criterion (matchArgs : dict string string) (k field : string)
    : M bool :=
  match Dict.get matchArgs k with
  | None => ret true
  | Some pattern =>
      match re_match pattern field with
      | Some b => ret b
      | None => raise ReError
      end
  end.

(** [k not in matchArgs or
     matchArgs[k].lower() == str(self.available(self._infos[i])).lower()],
    with [not] before [self.available] for the key [busy]. *)
Definition availability_criterion (matchArgs : dict string string) (k : string)
    (negated : bool) (i : DeviceInfo) : M bool :=
  match Dict.get matchArgs k with
  | None => ret true
  | Some wanted =>
      infos <- gets _infos ;;
      serial <- subscript (Dict.get infos i) ;;
      a <- available serial ;;
      ret (String.eqb (lower wanted) (lower (str_bool (xorb negated a))))
  end.

(** [a and b], the right operand evaluated only when the left one holds. *)
Definition and_then (a b : M bool) : M bool :=
  x <- a ;; if x then b else ret false.

(** The condition of the comprehension of [_wolock_match]. *)
Definition matches (matchArgs : dict string string) (i : DeviceInfo) : M bool :=
  and_then (regexp_criterion matchArgs "id" (id i))
  (and_then (regexp_criterion matchArgs "type" (type i))
  (and_then (regexp_criterion matchArgs "sw" (sw i))
  (and_then (regexp_criterion matchArgs "hw" (hw i))
  (and_then (regexp_criterion matchArgs "display" (display i))
  (and_then (availability_criterion matchArgs "free" false i)
            (availability_criterion matchArgs "busy" true i)))))).

(** The comprehension of [_wolock_match] over the keys of [_infos]. *)
Fixpoint matching (matchArgs : dict string string) (keys : list DeviceInfo)
    : M (list string) :=
  match keys with
  | [] => ret []
  | i :: keys' =>
      ok <- matches matchArgs i ;;
      if ok then
        infos <- gets _infos ;;
        serial <- subscript (Dict.get infos i) ;;
        rest <- matching matchArgs keys' ;;
        ret (serial :: rest)
      else matching matchArgs keys'
  end.

(** [Devices._wolock_match]: the set of matching serial numbers. *)
Definition _wolock_match (matchArgs : dict string string) : M (list string) :=
  infos <- gets _infos ;;
  serials <- matching matchArgs (Dict.keys infos) ;;
  ret (set_of serials).

(** [Devices.match] *)
Definition match_ (matchArgs : dict string string) : M (list string) :=
  _wolock_match matchArgs.

(** [[s for s in matchingSerials if self.available(s)]] *)
Fixpoint matching_available (matchingSerials : list string) : M (list string) :=
  match matchingSerials with
  | [] => ret []
  | s :: rest =>
      a <- available s ;;
      l <- matching_available rest ;;
      ret (if a then s :: l else l)
  end.

(** The loop of [Devices.acquire] after the acquirer is normalised.  [rnd]
    is the draw of [random.choice], [now] the clock when the lease is
    recorded, [fuel] bounds the number of rounds: [None] is a call still
    waiting after [fuel] rounds, [Some r] a call that returned [r]. *)
Fixpoint acquire_loop (fuel : nat) (block : bool) (acquirer : string)
    (matchArgs : dict string string) (now : timestamp) (rnd : nat)
    : M (option (option string)) :=
  match fuel with
  | O => ret None
  | S fuel' =>
      matchingSerials <- _wolock_match matchArgs ;;
      match matchingSerials with
      | [] => ret (Some None)
      | _ =>
          matchingAvailable <- matching_available matchingSerials ;;
          match matchingAvailable with
          | _ :: _ =>
              let key :=
                nth (Nat.modulo rnd (length matchingAvailable)) matchingAvailable "" in
              _wolock_acquire now key acquirer ;;;
              daemon_log_line (log_acquired acquirer key) ;;;
              ret (Some (Some key))
          | [] =>
              if negb block then ret (Some None)
              else
                daemon_log_line log_acquire_blocked ;;;
                acquire_loop fuel' block acquirer matchArgs now rnd
          end
      end
  end.

(** [Devices.acquire] *)
Definition acquire (fuel : nat) (block : bool) (acquirer : option string)
    (matchArgs : dict string string) (now : timestamp) (rnd : nat)
    : M (option (option string)) :=
  let acquirer := match acquirer with None => "" | Some a => a end in
  acquire_loop fuel block acquirer matchArgs now rnd.

End Matching.

(** [re.match] on a pattern without metacharacters: such a pattern matches
    exactly the strings it is a prefix of. *)
Definition literal_re_match (pattern s : string) : option bool :=
  Some (String.prefix pattern s).

(** ** Leases recorded in the ledger *)

(** [len(held.get(key, []))] *)
Definition leases (held : dict string (list timestamp)) (key : string) : nat :=
  match Dict.get held key with
  | Some stamps => length stamps
  | None => 0%nat
  end.

(** The number of leases [acquirer] has on [key]. *)
Definition held_by (acq : dict string (dict string (list timestamp)))
    (acquirer key : string) : nat :=
  match Dict.get acq acquirer with
  | Some held => leases held key
  | None => 0%nat
  end.

(** The sum over all acquirers of the length of their list for [key]. *)
Definition ledger_count (acq : dict string (dict string (list timestamp)))
    (key : string) : nat :=
  list_sum (map (fun e => leases (snd e) key) acq).

(** The lease count of every registered device is the number of leases the
    ledger records for it. *)
Definition lease_invariant (s : State) : Prop :=
  forall key rc,
    Dict.get (_refcount s) key = Some rc ->
    rc = Z.of_nat (ledger_count (_acquirer s) key).


(** ** Vocabulary of the properties *)

(** A method that leaves the state as it found it, whatever it returns or
    raises. *)
Definition reads_only {A} (m : M A) : Prop := forall s, snd (m s) = s.



(** The ledger after [acquirer] gives back its latest lease on [key], as
    [_wolock_release] rewrites it; [held] is the entry of [acquirer] and
    [stamps] its list for [key]. *)
Definition ledger_pop (acq : dict string (dict string (list timestamp)))
    (acquirer key : string) (held : dict string (list timestamp))
    (stamps : list timestamp) : dict string (dict string (list timestamp)) :=
  match removelast stamps with
  | [] =>
      match Dict.del held key with
      | [] => Dict.del acq acquirer
      | held' => Dict.set acq acquirer held'
      end
  | stamps' => Dict.set acq acquirer (Dict.set held key stamps')
  end.

(** The ledger after [acquirer] takes one more lease on [key], as
    [_wolock_acquire] rewrites it. *)
Definition ledger_push (acq : dict string (dict string (list timestamp)))
    (acquirer key : string) (now : timestamp)
    : dict string (dict string (list timestamp)) :=
  match Dict.get acq acquirer with
  | Some held =>
      match Dict.get held key with
      | Some stamps => Dict.set acq acquirer (Dict.set held key (stamps ++ [now]))
      | None => Dict.set acq acquirer (Dict.set held key [now])
      end
  | None => Dict.set acq acquirer [(key, [now])]
  end.

(** The ledger is well formed and agrees with the lease counts. *)
Definition ledger_ok (s : State) : Prop :=
  Dict.wf (_acquirer s) /\ lease_invariant s.

(** A method that keeps [P], whether it returns or raises. *)
Definition preserves {A} (P : State -> Prop) (m : M A) : Prop :=
  forall s, P s -> P (snd (m s)).

(** No acquirer is kept with nothing to its name: the entry of an acquirer
    is never an empty dictionary, and no list of timestamps in it is empty. *)
Definition ledger_normal (acq : dict string (dict string (list timestamp))) : Prop :=
  forall a held,
    Dict.get acq a = Some held ->
    held <> [] /\ forall key stamps, Dict.get held key = Some stamps -> stamps <> [].

(** No lease count is above the capacity its plugin declares, -1 standing
    for no limit. *)
Definition capacity_ok (s : State) : Prop :=
  forall key rc dc,
    Dict.get (_refcount s) key = Some rc ->
    Dict.get (_g_device_id_class s) key = Some dc ->
    maxRefCount dc = -1 \/ rc <= maxRefCount dc.

(** A method that neither reads nor writes the log: on a state with another
    log it gives the same result and leaves that state as it is. *)
Definition log_blind {A} (m : M A) : Prop :=
  forall l s, m (with_log l s) = (fst (m s), with_log l s).

(** Two states with the same registry, ledger and lists; the plugin of each
    identifier and the log may differ. *)
Definition same_devices (s s' : State) : Prop :=
  _devinfo s' = _devinfo s /\ _refcount s' = _refcount s
  /\ _acquirer s' = _acquirer s /\ _infos s' = _infos s
  /\ whitelist s' = whitelist s /\ blacklist s' = blacklist s
  /\ _g_device_classes s' = _g_device_classes s.

(** A plugin call that, when it raises, raises an [Exception]. *)
Definition raises_only_Exception {A} (r : Result A) : Prop :=
  forall e, r = Raise e -> is_Exception e = true.

(** A plugin whose [rescan] and [adopt] return or raise an [Exception]. *)
Definition well_behaved (dc : DeviceClass) : Prop :=
  raises_only_Exception (dc_rescan dc)
  /\ forall serialNumber, raises_only_Exception (adopt dc serialNumber).

(** Every identifier of the list has in [_g_device_id_class] a plugin of
    [dcs]. *)
Definition all_owned_by (dcs : list DeviceClass) (serialNumbers : list string)
    (s : State) : Prop :=
  forall x, In x serialNumbers ->
            exists dc, Dict.get (_g_device_id_class s) x = Some dc /\ In dc dcs.

(** ** A small installation *)

Module Fixture.

(** A plugin for phones, two simultaneous users per device. *)
Definition phone_info (serial : string) : DeviceInfo :=
  mkDeviceInfo serial "phone" "4.2" "rev1" "480x800".

Definition phones : DeviceClass :=
  mkDeviceClass 0 "phones" 2 (Ok ["X"])
    (fun serial => Ok (Handle 1, phone_info serial))
    (fun _ _ => Ok tt).

(** The same plugin after its devices were unplugged, and one whose
    [abandon] raises. *)
Definition phones_gone : DeviceClass :=
  mkDeviceClass 0 "phones" 2 (Ok [])
    (fun serial => Ok (Handle 1, phone_info serial))
    (fun _ _ => Ok tt).

Definition tablets_gone : DeviceClass :=
  mkDeviceClass 1 "tablets" 1 (Ok [])
    (fun serial => Ok (Handle 2, mkDeviceInfo serial "tablet" "1.0" "rev2" "1280x800"))
    (fun _ _ => Raise (PluginException "abandon failed")).

Definition empty : State := mkState [] [] [phones] [] [] [] [] [] [].

Definition run {A} (m : M A) (s : State) : State := snd (m s).

(** After [Devices()]: [X] is registered and free. *)
Definition started : State := run (init 0) empty.

(** Acquirer [a] leases [X] twice. *)
Definition leased_once : State :=
  run (acquire literal_re_match 1 false (Some "a") [("id", "X")] 10 0) started.

Definition leased_twice : State :=
  run (acquire literal_re_match 1 false (Some "a") [("id", "X")] 11 0) leased_once.

(** Acquirer [b] holds the only lease on [X]. *)
Definition leased_by_b : State :=
  run (acquire literal_re_match 1 false (Some "b") [("id", "X")] 10 0) started.

(** [X] is removed by force while [a] has two leases, then added again. *)
Definition removed : State := run (remove 20 "X" true) leased_twice.
Definition added_again : State := run (add "X") removed.

(** A registry that knows a tablet [T] and a phone [X], both unplugged
    since; the plugin of the tablet cannot abandon it. *)
Definition unplugged : State :=
  mkState [] [] [tablets_gone; phones_gone]
    [("T", tablets_gone); ("X", phones_gone)]
    [("T", (Handle 2, mkDeviceInfo "T" "tablet" "1.0" "rev2" "1280x800"));
     ("X", (Handle 1, phone_info "X"))]
    [("T", 0); ("X", 0)]
    []
    [(mkDeviceInfo "T" "tablet" "1.0" "rev2" "1280x800", "T");
     (phone_info "X", "X")]
    [].

(** Only [A] is on the whitelist; the plugin has seen [B] as well. *)
Definition both_seen : DeviceClass :=
  mkDeviceClass 0 "phones" 2 (Ok ["A"; "B"])
    (fun serial => Ok (Handle 1, phone_info serial))
    (fun _ _ => Ok tt).

Definition whitelisted : State :=
  run (init 0) (mkState ["A"] [] [both_seen] [] [] [] [] [] []).




(** A plugin whose [rescan] raises, one that cannot adopt [B], and one that
    reports [A] as well. *)
Definition broken_scan : DeviceClass :=
  mkDeviceClass 4 "broken" 1 (Raise (PluginException "usb down"))
    (fun serial => Ok (Handle 6, phone_info serial))
    (fun _ _ => Ok tt).

Definition picky : DeviceClass :=
  mkDeviceClass 5 "picky" 1 (Ok ["A"; "B"])
    (fun serial =>
       if String.eqb serial "B" then Raise (PluginException "no access")
       else Ok (Handle 7, phone_info serial))
    (fun _ _ => Ok tt).

Definition tablets_seen : DeviceClass :=
  mkDeviceClass 1 "tablets" 1 (Ok ["A"])
    (fun serial => Ok (Handle 2, mkDeviceInfo serial "tablet" "1.0" "rev2" "1280x800"))
    (fun _ _ => Ok tt).

Definition faulty_plugins : State :=
  mkState [] [] [broken_scan; picky] [] [] [] [] [] [].

(** A plugin whose [rescan] is interrupted from the keyboard, ahead of a
    working one. *)
Definition interrupted : DeviceClass :=
  mkDeviceClass 6 "interrupted" 1 (Raise (PluginBaseException "KeyboardInterrupt"))
    (fun serial => Ok (Handle 8, phone_info serial))
    (fun _ _ => Ok tt).

Definition interrupted_plugins : State :=
  mkState [] [] [interrupted; phones] [] [] [] [] [] [].

Definition colliding_plugins : State :=
  mkState [] [] [both_seen; tablets_seen; phones] [] [] [] [] [] [].

End Fixture.

(** * Properties *)

(** ** Dictionaries *)

Section DictFacts.
Context {K V : Type} `{EqKey K}.
Implicit Types (d : dict K V) (k : K) (v : V).

Lemma get_set_same d k v : Dict.get (Dict.set d k v) k = Some v.
Proof.
  induction d as [|[k' v'] d IH]; simpl.
  - now rewrite keqb_refl.
  - destruct (keqb k k') eqn:E; simpl; rewrite E; auto.
Qed.

Lemma get_set_other d k k' v : k <> k' -> Dict.get (Dict.set d k v) k' = Dict.get d k'.
Proof.
  intros Hne. induction d as [|[k0 v0] d IH]; simpl.
  - apply not_eq_sym in Hne. apply keqb_neq in Hne. now rewrite Hne.
  - destruct (keqb k k0) eqn:E; simpl.
    + apply keqb_eq in E; subst k0.
      apply not_eq_sym in Hne. apply keqb_neq in Hne. now rewrite Hne.
    + now rewrite IH.
Qed.

Lemma get_del_same d k : Dict.get (Dict.del d k) k = None.
Proof.
  induction d as [|[k0 v0] d IH]; simpl; auto.
  destruct (keqb k k0) eqn:E; simpl; auto. now rewrite E.
Qed.

Lemma get_del_other d k k' : k <> k' -> Dict.get (Dict.del d k) k' = Dict.get d k'.
Proof.
  intros Hne. induction d as [|[k0 v0] d IH]; simpl; auto.
  destruct (keqb k k0) eqn:E; simpl.
  - apply keqb_eq in E; subst k0.
    apply not_eq_sym in Hne. apply keqb_neq in Hne. now rewrite Hne.
  - now rewrite IH.
Qed.

Lemma get_in_keys d k : In k (Dict.keys d) <-> Dict.get d k <> None.
Proof.
  induction d as [|[k0 v0] d IH]; simpl.
  - split; [tauto | congruence].
  - destruct (keqb k k0) eqn:E.
    + apply keqb_eq in E. split; [congruence | auto].
    + apply keqb_neq in E. rewrite <- IH. split; [intros [?|?]; congruence || auto | auto].
Qed.

Lemma get_none_not_in d k : Dict.get d k = None -> ~ In k (Dict.keys d).
Proof. intros E Hin. apply get_in_keys in Hin. contradiction. Qed.

Lemma mem_get d k : Dict.mem d k = true <-> Dict.get d k <> None.
Proof. unfold Dict.mem. destruct (Dict.get d k); split; congruence. Qed.

Lemma in_keys_del d k k' : In k' (Dict.keys (Dict.del d k)) -> In k' (Dict.keys d).
Proof.
  induction d as [|[k0 v0] d IH]; simpl; auto.
  destruct (keqb k k0); simpl; tauto.
Qed.

Lemma wf_del d k : Dict.wf d -> Dict.wf (Dict.del d k).
Proof.
  unfold Dict.wf. induction d as [|[k0 v0] d IH]; simpl; auto.
  intros Hnd. inversion Hnd; subst.
  destruct (keqb k k0); simpl; auto.
  constructor; auto. intro Hin. apply in_keys_del in Hin. contradiction.
Qed.

Lemma in_keys_set d k v k' : In k' (Dict.keys (Dict.set d k v)) -> k' = k \/ In k' (Dict.keys d).
Proof.
  induction d as [|[k0 v0] d IH]; simpl.
  - intros [?|[]]; auto.
  - destruct (keqb k k0) eqn:E; simpl; intros [Hk|Hk]; auto.
    destruct (IH Hk); auto.
Qed.

Lemma wf_set d k v : Dict.wf d -> Dict.wf (Dict.set d k v).
Proof.
  unfold Dict.wf. induction d as [|[k0 v0] d IH]; simpl.
  - intros _. constructor; [simpl; tauto | constructor].
  - intros Hnd. inversion Hnd; subst.
    destruct (keqb k k0) eqn:E; simpl.
    + constructor; auto.
    + constructor; auto. intro Hin. apply in_keys_set in Hin.
      destruct Hin as [->|Hin]; [|contradiction].
      rewrite keqb_refl in E. discriminate.
Qed.

Lemma del_not_in d k : ~ In k (Dict.keys d) -> Dict.del d k = d.
Proof.
  induction d as [|[k0 v0] d IH]; simpl; auto.
  intros Hn. destruct (keqb k k0) eqn:E.
  - apply keqb_eq in E. subst. tauto.
  - f_equal. apply IH. tauto.
Qed.
End DictFacts.

(** ** Running a method *)

Ltac run_method :=
  unfold bind, gets, ret, raise, raise_if, subscript, modify, lift, try_except,
    daemon_log_line, del_item; simpl.

Lemma validate_registered s key rc :
  Dict.get (_refcount s) key = Some rc -> _validate key s = (Ok tt, s).
Proof.
  intros E. unfold _validate, Dict.mem. run_method. now rewrite E.
Qed.

Lemma validate_unregistered s key :
  Dict.get (_refcount s) key = None ->
  _validate key s = (Raise (ValueError (unknown_device key)), s).
Proof.
  intros E. unfold _validate, Dict.mem. run_method. now rewrite E.
Qed.

(** [available] reads the registry and leaves it as it is. *)
Lemma available_state key s : snd (available key s) = s.
Proof.
  unfold available, bind.
  destruct (Dict.get (_refcount s) key) as [rc|] eqn:E.
  - rewrite (validate_registered _ _ E). run_method.
    destruct (Dict.get (_g_device_id_class s) key) as [dc|]; simpl; auto.
    destruct (maxRefCount dc =? -1); simpl; auto.
    rewrite E; reflexivity.
  - rewrite (validate_unregistered _ _ E). reflexivity.
Qed.

(** ** Availability *)

(** C8: for a registered device [available] answers true exactly when the
    lease count is strictly below the capacity of the owning plugin or that
    capacity is the unlimited value -1; for an unregistered identifier it
    raises the error for an unknown device. *)
Theorem available_iff_below_capacity (s : State) (key : string) :
  (forall rc dc,
      Dict.get (_refcount s) key = Some rc ->
      Dict.get (_g_device_id_class s) key = Some dc ->
      exists b, available key s = (Ok b, s)
                /\ (b = true <-> rc < maxRefCount dc \/ maxRefCount dc = -1))
  /\ (Dict.get (_refcount s) key = None ->
      available key s = (Raise (ValueError (unknown_device key)), s)).
Proof.
  split.
  - intros rc dc Hrc Hdc. unfold available, bind.
    rewrite (validate_registered _ _ Hrc). run_method. rewrite Hdc; simpl.
    destruct (maxRefCount dc =? -1) eqn:Eu.
    + exists true. split; [reflexivity|]. apply Z.eqb_eq in Eu. tauto.
    + rewrite Hrc; simpl. exists (rc <? maxRefCount dc). split; [reflexivity|].
      apply Z.eqb_neq in Eu. rewrite Z.ltb_lt. tauto.
  - intros Hrc. unfold available, bind.
    now rewrite (validate_unregistered _ _ Hrc).
Qed.

Lemma available_iff_below_capacity_witness :
  (exists b, available "X" Fixture.leased_once = (Ok b, Fixture.leased_once)
             /\ (b = true <-> 1 < 2 \/ 2 = -1))
  /\ available "Y" Fixture.leased_once
     = (Raise (ValueError (unknown_device "Y")), Fixture.leased_once).
Proof.
  split.
  - apply (proj1 (available_iff_below_capacity Fixture.leased_once "X")
             1 Fixture.phones); reflexivity.
  - apply (proj2 (available_iff_below_capacity Fixture.leased_once "Y")).
    reflexivity.
Defined.

(** ** What [acquired] returns *)

(** C2, as stated, fails: with a lease outstanding on [X], [acquired] hands
    out the object the plugin allocated and not the description [info]
    returns. *)
Lemma acquired_returns_device_object :
  Dict.get (_refcount Fixture.leased_once) "X" = Some 1
  /\ Dict.get (_devinfo Fixture.leased_once) "X"
     = Some (Handle 1, Fixture.phone_info "X")
  /\ fst (info "X" Fixture.leased_once) = Ok (info_dict (Fixture.phone_info "X"))
  /\ fst (acquired "X" Fixture.leased_once) = Ok (device_object (Handle 1))
  /\ fst (acquired "X" Fixture.leased_once) <> Ok (info_dict (Fixture.phone_info "X")).
Proof.
  repeat split; try reflexivity. vm_compute. discriminate.
Qed.

(** C2, amended: for a registered device with a positive lease count
    [acquired] returns the device object stored for it, the first component
    of its entry of [_devinfo]; with a lease count of zero it raises the
    error for a device that is not acquired.  The registry is left as it
    was. *)
Theorem acquired_spec (s : State) (key : string) (rc : Z) (d : DeviceObj) (i : DeviceInfo) :
  Dict.get (_refcount s) key = Some rc ->
  Dict.get (_devinfo s) key = Some (d, i) ->
  (0 < rc -> acquired key s = (Ok (device_object d), s))
  /\ (rc = 0 -> acquired key s = (Raise (ValueError (not_acquired key)), s)).
Proof.
  intros Hrc Hdi. unfold acquired. run_method. rewrite Hrc; simpl. split.
  - intros Hpos. apply Z.gtb_lt in Hpos. rewrite Hpos, Hdi. reflexivity.
  - intros ->. reflexivity.
Qed.

Lemma acquired_spec_witness :
  acquired "X" Fixture.leased_once = (Ok (device_object (Handle 1)), Fixture.leased_once)
  /\ acquired "X" Fixture.started = (Raise (ValueError (not_acquired "X")), Fixture.started).
Proof.
  split.
  - apply (proj1 (@acquired_spec Fixture.leased_once "X" 1 (Handle 1)
                    (Fixture.phone_info "X") eq_refl eq_refl)). reflexivity.
  - apply (proj2 (@acquired_spec Fixture.started "X" 0 (Handle 1)
                    (Fixture.phone_info "X") eq_refl eq_refl)). reflexivity.
Defined.

(** ** Methods that only read *)

Lemma reads_only_ret {A} (a : A) : reads_only (ret a).
Proof. intro s; reflexivity. Qed.

Lemma reads_only_raise {A} (e : exn) : reads_only (@raise A e).
Proof. intro s; reflexivity. Qed.

Lemma reads_only_gets {A} (f : State -> A) : reads_only (gets f).
Proof. intro s; reflexivity. Qed.

Lemma reads_only_subscript {A} (o : option A) : reads_only (subscript o).
Proof. intro s; destruct o; reflexivity. Qed.

Lemma reads_only_bind {A B} (m : M A) (f : A -> M B) :
  reads_only m -> (forall a, reads_only (f a)) -> reads_only (bind m f).
Proof.
  intros Hm Hf s. unfold bind. specialize (Hm s).
  destruct (m s) as [[a|e] s']; simpl in *; subst; auto. apply Hf.
Qed.

Lemma reads_only_available key : reads_only (available key).
Proof. intro s. apply available_state. Qed.

Create HintDb reads.
#[export] Hint Resolve reads_only_ret reads_only_raise reads_only_gets
  reads_only_subscript reads_only_available : reads.

Ltac reads :=
  repeat match goal with
         | |- reads_only (bind _ _) => apply reads_only_bind; [|intro]
         end;
  auto with reads.

Section MatchingFacts.
Variable re_match : string -> string -> option bool.

Lemma reads_only_regexp_criterion matchArgs k field :
  reads_only (regexp_criterion re_match matchArgs k field).
Proof.
  unfold regexp_criterion. destruct (Dict.get matchArgs k); auto with reads.
  destruct (re_match s field); auto with reads.
Qed.

Lemma reads_only_availability_criterion matchArgs k negated i :
  reads_only (availability_criterion matchArgs k negated i).
Proof.
  unfold availability_criterion. destruct (Dict.get matchArgs k); reads.
Qed.

Lemma reads_only_and_then a b :
  reads_only a -> reads_only b -> reads_only (and_then a b).
Proof.
  intros Ha Hb. unfold and_then. apply reads_only_bind; auto.
  intros []; auto with reads.
Qed.

Lemma reads_only_matches matchArgs i : reads_only (matches re_match matchArgs i).
Proof.
  unfold matches.
  repeat apply reads_only_and_then;
    auto using reads_only_regexp_criterion, reads_only_availability_criterion.
Qed.

Lemma reads_only_matching matchArgs keys : reads_only (matching re_match matchArgs keys).
Proof.
  induction keys as [|i keys IH]; simpl; auto with reads.
  apply reads_only_bind; [apply reads_only_matches|].
  intros []; auto. reads.
Qed.

Lemma reads_only_wolock_match matchArgs : reads_only (_wolock_match re_match matchArgs).
Proof.
  unfold _wolock_match. reads. apply reads_only_matching.
Qed.

Lemma reads_only_matching_available serials : reads_only (matching_available serials).
Proof. induction serials as [|x serials IH]; simpl; reads. Qed.

(** A method that only reads is determined by its result. *)
Lemma reads_only_run {A} (m : M A) s r : reads_only m -> fst (m s) = r -> m s = (r, s).
Proof.
  intros Hm <-. specialize (Hm s). destruct (m s); simpl in *; congruence.
Qed.

(** When no matching device is available the filter of [acquire] is empty. *)
Lemma matching_available_none serials s :
  (forall key, In key serials -> fst (available key s) = Ok false) ->
  matching_available serials s = (Ok [], s).
Proof.
  induction serials as [|x serials IH]; intros Hall; simpl; auto.
  unfold bind.
  rewrite (reads_only_run s (reads_only_available x) (Hall x (or_introl eq_refl))).
  rewrite IH by (intros; apply Hall; right; assumption).
  reflexivity.
Qed.

(** ** The failures of a non-blocking [acquire] *)

(** C1, amended: a non-blocking [acquire] returns [None] when the criteria
    match no registered device, and it returns the same [None] when they
    match devices none of which is available; in both cases the registry
    is left as it was. *)
Theorem nonblocking_acquire_failures (s : State) (fuel : nat)
    (acquirer : option string) (matchArgs : dict string string)
    (now : timestamp) (rnd : nat) :
  (fst (_wolock_match re_match matchArgs s) = Ok [] ->
   acquire re_match (S fuel) false acquirer matchArgs now rnd s = (Ok (Some None), s))
  /\ (forall serials,
        fst (_wolock_match re_match matchArgs s) = Ok serials ->
        serials <> [] ->
        (forall key, In key serials -> fst (available key s) = Ok false) ->
        acquire re_match (S fuel) false acquirer matchArgs now rnd s
        = (Ok (Some None), s)).
Proof.
  split.
  - intros Hm. unfold acquire; simpl. unfold bind at 1.
    rewrite (reads_only_run s (reads_only_wolock_match matchArgs) Hm). reflexivity.
  - intros serials Hm Hne Hall. unfold acquire; simpl. unfold bind at 1.
    rewrite (reads_only_run s (reads_only_wolock_match matchArgs) Hm).
    destruct serials as [|x serials]; [contradiction|].
    unfold bind. rewrite (@matching_available_none (x :: serials) s Hall). reflexivity.
Qed.

End MatchingFacts.

Lemma nonblocking_acquire_failures_witness :
  acquire literal_re_match 1 false (Some "b") [("id", "Y")] 12 0 Fixture.leased_twice
  = (Ok (Some None), Fixture.leased_twice)
  /\ acquire literal_re_match 1 false (Some "b") [("id", "X")] 12 0 Fixture.leased_twice
     = (Ok (Some None), Fixture.leased_twice).
Proof.
  split.
  - apply (proj1 (nonblocking_acquire_failures literal_re_match Fixture.leased_twice
                    0 (Some "b") [("id", "Y")] 12 0)).
    reflexivity.
  - apply (proj2 (nonblocking_acquire_failures literal_re_match Fixture.leased_twice
                    0 (Some "b") [("id", "X")] 12 0) ["X"]).
    + reflexivity.
    + discriminate.
    + intros key [<-|[]]. reflexivity.
Defined.

(** C1, as stated, fails: with [X] leased up to its capacity of two, criteria
    that match no device and criteria that match only [X] give a non-blocking
    [acquire] the same result, [None], and the same registry. *)
Lemma acquire_failures_not_distinct :
  fst (match_ literal_re_match [("id", "Y")] Fixture.leased_twice) = Ok []
  /\ fst (match_ literal_re_match [("id", "X")] Fixture.leased_twice) = Ok ["X"]
  /\ fst (available "X" Fixture.leased_twice) = Ok false
  /\ acquire literal_re_match 1 false (Some "b") [("id", "Y")] 12 0 Fixture.leased_twice
     = acquire literal_re_match 1 false (Some "b") [("id", "X")] 12 0 Fixture.leased_twice.
Proof. repeat split. Qed.

(** ** Sets of serial numbers *)

Lemma mem_string_In x l : mem_string x l = true <-> In x l.
Proof.
  unfold mem_string. rewrite existsb_exists. split.
  - intros [y [Hin E]]. apply String.eqb_eq in E. now subst.
  - intros Hin. exists x. split; [assumption | apply String.eqb_refl].
Qed.

Lemma In_set_add x y l : In x (set_add y l) <-> x = y \/ In x l.
Proof.
  unfold set_add. destruct (mem_string y l) eqn:E.
  - apply mem_string_In in E. split; [auto | intros [->|]; auto].
  - rewrite in_app_iff; simpl. split; [intros [|[|[]]] | intros [|]]; auto.
Qed.

Lemma In_fold_set_add x l acc :
  In x (fold_left (fun acc y => set_add y acc) l acc) <-> In x acc \/ In x l.
Proof.
  revert acc. induction l as [|y l IH]; intros acc; simpl.
  - tauto.
  - rewrite IH, In_set_add. split; [intros [[|]|] | intros [|[|]]]; auto.
Qed.

Lemma In_set_of x l : In x (set_of l) <-> In x l.
Proof. unfold set_of. rewrite In_fold_set_add. simpl. tauto. Qed.

(** ** Criteria that [match] does not know *)

Section UnrecognizedCriteria.
Variable re_match : string -> string -> option bool.







End UnrecognizedCriteria.



(** ** The acquirer [None] *)

(** What [_wolock_acquire] writes in the ledger: one more lease of
    [acquirer] on [key]. *)
Lemma wolock_acquire_held_by now key acquirer s s' :
  _wolock_acquire now key acquirer s = (Ok tt, s') ->
  held_by (_acquirer s') acquirer key = S (held_by (_acquirer s) acquirer key).
Proof.
  unfold _wolock_acquire. run_method.
  destruct (Dict.get (_refcount s) key) as [rc|]; simpl; [|discriminate].
  unfold held_by, leases.
  destruct (Dict.get (_acquirer s) acquirer) as [held|] eqn:Ea.
  - destruct (Dict.get held key) as [stamps|] eqn:Ek; simpl;
      intros [= <-]; simpl; rewrite !get_set_same; [|reflexivity].
    rewrite length_app; simpl. lia.
  - simpl. intros [= <-]; simpl. rewrite get_set_same. simpl.
    now rewrite String.eqb_refl.
Qed.

(** The acquirer found automatically has a lease on the device. *)
Lemma find_acquirer_holds acq key a :
  find_acquirer acq key = Some a ->
  exists held, In (a, held) acq /\ (0 < leases held key)%nat.
Proof.
  induction acq as [|[acqid held] acq IH]; simpl; [discriminate|].
  unfold leases.
  destruct (Dict.get held key) as [[|t stamps]|] eqn:E; intros Hf.
  - destruct (IH Hf) as [h [Hin Hl]]. exists h; auto.
  - injection Hf as <-. exists held. rewrite E. simpl. split; [auto | lia].
  - destruct (IH Hf) as [h [Hin Hl]]. exists h; auto.
Qed.

Section AcquirerNone.
Variable re_match : string -> string -> option bool.

Lemma acquire_loop_held_by fuel block acquirer matchArgs now rnd key s s' :
  acquire_loop re_match fuel block acquirer matchArgs now rnd s
  = (Ok (Some (Some key)), s') ->
  held_by (_acquirer s') acquirer key = S (held_by (_acquirer s) acquirer key).
Proof.
  revert s. induction fuel as [|fuel IH]; intros s; simpl; [discriminate|].
  unfold bind at 1.
  pose proof (reads_only_wolock_match re_match matchArgs s) as Hs.
  destruct (_wolock_match re_match matchArgs s) as [[serials|e] s0];
    simpl in Hs; subst s0; [|discriminate].
  destruct serials as [|x serials]; [discriminate|].
  unfold bind at 1.
  pose proof (reads_only_matching_available (x :: serials) s) as Hs.
  destruct (matching_available (x :: serials) s) as [[avail|e] s0];
    simpl in Hs; subst s0; [|discriminate].
  destruct avail as [|y avail].
  - destruct block; simpl; [|discriminate].
    unfold bind, daemon_log_line, modify. intros Hrun.
    apply IH in Hrun. exact Hrun.
  - unfold bind at 1.
    destruct (_wolock_acquire now _ acquirer s) as [[[]|e] s1] eqn:Ea; [|discriminate].
    run_method. intros [= Hk <-]. simpl.
    apply wolock_acquire_held_by in Ea. now rewrite <- Hk.
Qed.

(** C9: [acquire] turns an acquirer of [None] into the empty string and
    records the lease under it, while [release] with [None] releases for the
    first acquirer, in the order of the ledger, that has a lease on the
    device.  With another acquirer ahead in the ledger,
    [acquire(None)] followed by [release(None)] leaves the lease of the
    empty string in place, and [acquire("")] followed by [release("")]
    removes it. *)
Theorem acquire_release_with_None :
  (forall s fuel block matchArgs now rnd,
      acquire re_match fuel block None matchArgs now rnd s
      = acquire re_match fuel block (Some "") matchArgs now rnd s)
  /\ (forall s fuel block matchArgs now rnd key s',
        acquire re_match fuel block None matchArgs now rnd s
        = (Ok (Some (Some key)), s') ->
        held_by (_acquirer s') "" key = S (held_by (_acquirer s) "" key))
  /\ (forall s now key a,
        find_acquirer (_acquirer s) key = Some a ->
        release now key None s = release now key (Some a) s
        /\ exists held, In (a, held) (_acquirer s) /\ (0 < leases held key)%nat)
  /\ (let s := Fixture.leased_by_b in
      let s1 := snd (acquire re_match 1 false None [] 12 0 s) in
      let s2 := snd (acquire re_match 1 false (Some "") [] 12 0 s) in
      fst (acquire re_match 1 false None [] 12 0 s) = Ok (Some (Some "X"))
      /\ fst (release 13 "X" None s1) = Ok tt
      /\ fst (release 13 "X" (Some "") s2) = Ok tt
      /\ _acquirer (snd (release 13 "X" None s1)) = [("", [("X", [12])])]
      /\ _acquirer (snd (release 13 "X" (Some "") s2)) = [("b", [("X", [10])])]).
Proof.
  split; [reflexivity|]. split; [|split].
  - intros s fuel block matchArgs now rnd key s'. unfold acquire.
    apply acquire_loop_held_by.
  - intros s now key a Hf. split; [|now apply find_acquirer_holds].
    unfold release, bind.
    destruct (Dict.get (_refcount s) key) as [rc|] eqn:Erc.
    + rewrite (validate_registered _ _ Erc).
      unfold _wolock_release. run_method. rewrite Erc; simpl.
      destruct (rc =? 0); simpl; [reflexivity|]. rewrite Hf. reflexivity.
    + rewrite (validate_unregistered _ _ Erc). reflexivity.
  - repeat split.
Qed.

End AcquirerNone.

Lemma acquire_release_with_None_witness :
  acquire literal_re_match 1 false None [("id", "X")] 12 0 Fixture.leased_by_b
  = (Ok (Some (Some "X")),
     snd (acquire literal_re_match 1 false None [("id", "X")] 12 0 Fixture.leased_by_b))
  /\ held_by
       (_acquirer
          (snd (acquire literal_re_match 1 false None [("id", "X")] 12 0 Fixture.leased_by_b)))
       "" "X" = 1%nat
  /\ release 13 "X" None Fixture.leased_twice
     = release 13 "X" (Some "a") Fixture.leased_twice.
Proof.
  split; [reflexivity|]. split.
  - apply (proj1 (proj2 (acquire_release_with_None literal_re_match))
             Fixture.leased_by_b 1%nat false [("id", "X")] 12 0%nat "X").
    reflexivity.
  - apply (proj1 (proj2 (proj2 (acquire_release_with_None literal_re_match)))
             Fixture.leased_twice 13 "X" "a").
    reflexivity.
Defined.

(** ** Counting leases *)

Lemma bind_ok {A B} (m : M A) (f : A -> M B) s a s' :
  m s = (Ok a, s') -> bind m f s = f a s'.
Proof. intros E. unfold bind. now rewrite E. Qed.

Lemma bind_raise {A B} (m : M A) (f : A -> M B) s e s' :
  m s = (Raise e, s') -> bind m f s = (Raise e, s').
Proof. intros E. unfold bind. now rewrite E. Qed.

Lemma leases_set_same held key stamps :
  leases (Dict.set held key stamps) key = length stamps.
Proof. unfold leases. now rewrite get_set_same. Qed.

Lemma leases_set_other held key key' stamps :
  key <> key' -> leases (Dict.set held key stamps) key' = leases held key'.
Proof. intros Hne. unfold leases. now rewrite get_set_other. Qed.

Lemma leases_del_same held key : leases (Dict.del held key) key = 0%nat.
Proof. unfold leases. now rewrite get_del_same. Qed.

Lemma leases_del_other held key key' :
  key <> key' -> leases (Dict.del held key) key' = leases held key'.
Proof. intros Hne. unfold leases. now rewrite get_del_other. Qed.

Lemma ledger_count_cons a held acq key :
  ledger_count ((a, held) :: acq) key = (leases held key + ledger_count acq key)%nat.
Proof. reflexivity. Qed.

Lemma ledger_count_set acq a held held' key :
  Dict.get acq a = Some held ->
  (ledger_count (Dict.set acq a held') key + leases held key
   = ledger_count acq key + leases held' key)%nat.
Proof.
  induction acq as [|[a0 h0] acq IH]; simpl; [discriminate|].
  destruct (String.eqb a a0) eqn:E.
  - intros [= ->]. rewrite !ledger_count_cons. lia.
  - intros Hg. rewrite !ledger_count_cons. specialize (IH Hg). lia.
Qed.

Lemma ledger_count_set_new acq a held' key :
  Dict.get acq a = None ->
  ledger_count (Dict.set acq a held') key
  = (ledger_count acq key + leases held' key)%nat.
Proof.
  induction acq as [|[a0 h0] acq IH]; simpl.
  - intros _. rewrite ledger_count_cons. unfold ledger_count; simpl. lia.
  - destruct (String.eqb a a0) eqn:E; [discriminate|].
    intros Hg. rewrite !ledger_count_cons, (IH Hg). lia.
Qed.

Lemma ledger_count_del acq a held key :
  Dict.wf acq ->
  Dict.get acq a = Some held ->
  (ledger_count (Dict.del acq a) key + leases held key = ledger_count acq key)%nat.
Proof.
  unfold Dict.wf.
  induction acq as [|[a0 h0] acq IH]; simpl; [discriminate|].
  intros Hnd. inversion Hnd as [|? ? Hnotin Hnd']; subst.
  destruct (String.eqb a a0) eqn:E.
  - intros [= ->]. apply String.eqb_eq in E. subst a0.
    rewrite (del_not_in _ _ Hnotin), ledger_count_cons. lia.
  - intros Hg. rewrite !ledger_count_cons. specialize (IH Hnd' Hg). lia.
Qed.

Lemma length_removelast {A} (x : A) (l : list A) :
  length (removelast (x :: l)) = length l.
Proof.
  revert x. induction l as [|y l IH]; intros x; [reflexivity|].
  change (removelast (x :: y :: l)) with (x :: removelast (y :: l)).
  cbn [length]. f_equal. apply IH.
Qed.

(** With a well-formed ledger the acquirer found automatically is a key of
    the ledger whose entry has a lease on the device. *)
Lemma find_acquirer_get acq key a :
  Dict.wf acq ->
  find_acquirer acq key = Some a ->
  exists held t stamps,
    Dict.get acq a = Some held /\ Dict.get held key = Some (t :: stamps).
Proof.
  unfold Dict.wf.
  induction acq as [|[a0 h0] acq IH]; simpl; [discriminate|].
  intros Hnd. inversion Hnd as [|? ? Hnotin Hnd']; subst.
  assert (Hrest : find_acquirer acq key = Some a ->
                  exists held t stamps,
                    (if String.eqb a a0 then Some h0 else Dict.get acq a) = Some held
                    /\ Dict.get held key = Some (t :: stamps)).
  { intros Hf. destruct (IH Hnd' Hf) as [held [t [stamps [Hg Hk]]]].
    exists held, t, stamps. split; [|assumption].
    destruct (String.eqb a a0) eqn:E; [|assumption].
    apply String.eqb_eq in E. subst a0. exfalso. apply Hnotin.
    apply get_in_keys. congruence. }
  destruct (Dict.get h0 key) as [[|t stamps]|] eqn:E; auto.
  intros [= <-]. exists h0, t, stamps. now rewrite String.eqb_refl.
Qed.

(** Somebody is found as soon as the ledger records a lease on the device. *)
Lemma find_acquirer_positive acq key :
  (0 < ledger_count acq key)%nat -> exists a, find_acquirer acq key = Some a.
Proof.
  induction acq as [|[a0 h0] acq IH]; simpl.
  - unfold ledger_count; simpl. lia.
  - rewrite ledger_count_cons. unfold leases.
    destruct (Dict.get h0 key) as [[|t stamps]|]; simpl; eauto.
Qed.

Lemma ledger_pop_wf acq a key held stamps :
  Dict.wf acq -> Dict.wf (ledger_pop acq a key held stamps).
Proof.
  intros Hwf. unfold ledger_pop.
  destruct (removelast stamps); [destruct (Dict.del held key)|];
    auto using wf_del, wf_set.
Qed.

Lemma ledger_pop_count acq a key held t stamps :
  Dict.wf acq ->
  Dict.get acq a = Some held ->
  Dict.get held key = Some (t :: stamps) ->
  (ledger_count (ledger_pop acq a key held (t :: stamps)) key + 1
   = ledger_count acq key)%nat.
Proof.
  intros Hwf Ha Hk. unfold ledger_pop.
  assert (Hl : leases held key = S (length stamps)) by (unfold leases; now rewrite Hk).
  pose proof (length_removelast t stamps) as Hlen.
  destruct (removelast (t :: stamps)) as [|t' stamps'] eqn:Er.
  - destruct (Dict.del held key) as [|e held'] eqn:Ed.
    + pose proof (@ledger_count_del acq a held key Hwf Ha) as Hs.
      rewrite Hl, <- Hlen in Hs. simpl in Hs. lia.
    + pose proof (@ledger_count_set acq a held (e :: held') key Ha) as Hs.
      rewrite <- Ed in *. rewrite leases_del_same, Hl, <- Hlen in Hs. simpl in Hs. lia.
  - pose proof (@ledger_count_set acq a held (Dict.set held key (t' :: stamps')) key Ha) as Hs.
    rewrite leases_set_same, Hl, <- Hlen in Hs. lia.
Qed.

Lemma ledger_pop_count_other acq a key key' held t stamps :
  Dict.wf acq ->
  Dict.get acq a = Some held ->
  key <> key' ->
  ledger_count (ledger_pop acq a key held (t :: stamps)) key' = ledger_count acq key'.
Proof.
  intros Hwf Ha Hne. unfold ledger_pop.
  destruct (removelast (t :: stamps)) as [|t' stamps'].
  - destruct (Dict.del held key) as [|e held'] eqn:Ed.
    + pose proof (@ledger_count_del acq a held key' Hwf Ha) as Hd.
      pose proof (@leases_del_other held key key' Hne) as Ho. rewrite Ed in Ho.
      unfold leases at 1 in Ho; simpl in Ho. lia.
    + pose proof (@ledger_count_set acq a held (e :: held') key' Ha) as Hs.
      rewrite <- Ed in *. rewrite leases_del_other in Hs by assumption. lia.
  - pose proof (@ledger_count_set acq a held (Dict.set held key (t' :: stamps')) key' Ha) as Hs.
    rewrite leases_set_other in Hs by assumption. lia.
Qed.

(** ** A successful release *)

(** [_wolock_release] when the acquirer it settles on, given or found, has a
    lease on the device: the lease count goes down by one, the acquirer's
    latest timestamp is popped and a line is logged. *)
Lemma wolock_release_run now key acquirer a s rc held t stamps :
  Dict.get (_refcount s) key = Some rc ->
  rc <> 0 ->
  acquirer = Some a \/ (acquirer = None /\ find_acquirer (_acquirer s) key = Some a) ->
  Dict.get (_acquirer s) a = Some held ->
  Dict.get held key = Some (t :: stamps) ->
  _wolock_release now key acquirer s
  = (Ok tt,
     with_log (daemon_log s ++ [log_released a key (now - last (t :: stamps) 0)])
       (with_acquirer (ledger_pop (_acquirer s) a key held (t :: stamps))
          (with_refcount (Dict.set (_refcount s) key (rc - 1)) s))).
Proof.
  intros Hrc Hnz Hacq Ha Hk.
  unfold _wolock_release, bind, gets, subscript, raise_if, ret, raise.
  rewrite Hrc. apply Z.eqb_neq in Hnz. rewrite Hnz.
  cbn [_acquirer].
  replace (match acquirer with
           | Some a0 => Some a0
           | None => find_acquirer (_acquirer s) key
           end) with (Some a)
    by (destruct Hacq as [->|[-> ->]]; reflexivity).
  rewrite Ha, Hk. unfold ledger_pop, modify, daemon_log_line, modify.
  cbn [with_refcount _acquirer whitelist blacklist _g_device_classes
       _g_device_id_class _devinfo _refcount _infos daemon_log].
  destruct (removelast (t :: stamps)); [destruct (Dict.del held key)|]; reflexivity.
Qed.

(** ** Forced removal *)

(** C6: removing a device whose lease count is positive, through the loop
    of [rescan] that forgets detached devices or through [remove] with
    [force], first runs the automatic release, which takes exactly one lease
    on the device out of the ledger and touches no other device; then,
    the plugin having abandoned the device, both index entries and the lease
    count are deleted whatever the lease count was, so that the ledger keeps
    the leases beyond the first. *)
Theorem forced_removal_releases_one_lease (now : timestamp) (s : State)
    (serialNumber : string) (rc : Z) (d : DeviceObj) (i : DeviceInfo)
    (dc : DeviceClass) :
  Dict.wf (_acquirer s) ->
  Dict.get (_refcount s) serialNumber = Some rc ->
  0 < rc ->
  (0 < ledger_count (_acquirer s) serialNumber)%nat ->
  Dict.get (_devinfo s) serialNumber = Some (d, i) ->
  Dict.get (_infos s) i <> None ->
  Dict.get (_g_device_id_class s) serialNumber = Some dc ->
  abandon dc i d = Ok tt ->
  exists s1 s',
    _wolock_release now serialNumber None s = (Ok tt, s1)
    /\ (ledger_count (_acquirer s1) serialNumber + 1
        = ledger_count (_acquirer s) serialNumber)%nat
    /\ (forall key, key <> serialNumber ->
          ledger_count (_acquirer s1) key = ledger_count (_acquirer s) key)
    /\ _wolock_remove now serialNumber s = (Ok tt, s')
    /\ remove now serialNumber true s = (Ok tt, s')
    /\ (forall serialNumbers,
          mem_string serialNumber serialNumbers = false ->
          rescan_forget now serialNumbers serialNumber s
          = (Ok tt, with_log (daemon_log s' ++ [log_rescan_forgot serialNumber]) s'))
    /\ _acquirer s' = _acquirer s1
    /\ Dict.get (_devinfo s') serialNumber = None
    /\ Dict.get (_refcount s') serialNumber = None
    /\ Dict.get (_infos s') i = None.
Proof.
  intros Hwf Hrc Hpos Hcount Hdi Hinfo Hcls Hab.
  destruct (find_acquirer_positive _ _ Hcount) as [a Hf].
  destruct (find_acquirer_get _ Hwf Hf) as [held [t [stamps [Ha Hk]]]].
  assert (Hnz : rc <> 0) by lia.
  pose proof (@wolock_release_run now serialNumber None a s rc held t stamps
                Hrc Hnz (or_intror (conj eq_refl Hf)) Ha Hk) as Hrel.
  set (s1 := with_log (daemon_log s ++ [log_released a serialNumber (now - last (t :: stamps) 0)])
       (with_acquirer (ledger_pop (_acquirer s) a serialNumber held (t :: stamps))
          (with_refcount (Dict.set (_refcount s) serialNumber (rc - 1)) s))) in *.
  set (s' := with_log (daemon_log s1 ++ [log_removed serialNumber])
               (with_infos (Dict.del (_infos s) i)
                  (with_refcount (Dict.del (_refcount s1) serialNumber)
                     (with_devinfo (Dict.del (_devinfo s) serialNumber) s1)))).
  assert (E1 : _devinfo s1 = _devinfo s) by reflexivity.
  assert (E2 : _g_device_id_class s1 = _g_device_id_class s) by reflexivity.
  assert (E3 : _infos s1 = _infos s) by reflexivity.
  assert (E4 : _refcount s1 = Dict.set (_refcount s) serialNumber (rc - 1))
    by reflexivity.
  assert (Hrem : _wolock_remove now serialNumber s = (Ok tt, s')).
  { unfold _wolock_remove.
    rewrite (@bind_ok _ _ _ _ _ _ _ (validate_registered _ _ Hrc)).
    unfold bind at 1, gets at 1. unfold bind at 1, subscript at 1. rewrite Hrc.
    unfold ret at 1. apply Z.gtb_lt in Hpos. rewrite Hpos.
    rewrite (@bind_ok _ _ _ _ _ _ _ Hrel).
    unfold bind, gets, subscript, ret, lift, del_item, modify, daemon_log_line,
      modify, raise.
    rewrite E1, Hdi. cbv beta iota. rewrite E2, Hcls. cbv beta iota.
    rewrite Hab. cbv beta iota. rewrite E1, Hdi. cbv beta iota.
    unfold bind, gets, Dict.mem. rewrite E1, Hdi. cbv beta iota.
    cbn [with_devinfo _refcount]. rewrite E4, get_set_same. cbv beta iota.
    cbn [with_refcount with_devinfo _infos]. rewrite E3.
    destruct (Dict.get (_infos s) i) eqn:Ei; [|contradiction].
    reflexivity. }
  exists s1, s'. repeat split.
  - exact Hrel.
  - apply (@ledger_pop_count _ a serialNumber held t stamps Hwf Ha Hk).
  - intros key Hne.
    apply (@ledger_pop_count_other _ a serialNumber key held t stamps Hwf Ha).
    congruence.
  - exact Hrem.
  - unfold remove.
    rewrite (@bind_ok _ _ _ _ _ _ _ (validate_registered _ _ Hrc)).
    unfold bind at 1, gets at 1. unfold bind at 1, subscript at 1. rewrite Hrc.
    unfold ret at 1. rewrite andb_false_r. unfold raise_if, bind, ret. exact Hrem.
  - intros serialNumbers Hmem. unfold rescan_forget. rewrite Hmem. cbv beta iota delta [negb].
    rewrite (@bind_ok _ _ _ _ _ _ _ Hrem). reflexivity.
  - simpl. apply get_del_same.
  - simpl. apply get_del_same.
  - simpl. apply get_del_same.
Qed.

Lemma forced_removal_releases_one_lease_witness :
  exists s1 s',
    _wolock_release 20 "X" None Fixture.leased_twice = (Ok tt, s1)
    /\ (ledger_count (_acquirer s1) "X" + 1
        = ledger_count (_acquirer Fixture.leased_twice) "X")%nat
    /\ (forall key, key <> "X" ->
          ledger_count (_acquirer s1) key
          = ledger_count (_acquirer Fixture.leased_twice) key)
    /\ _wolock_remove 20 "X" Fixture.leased_twice = (Ok tt, s')
    /\ remove 20 "X" true Fixture.leased_twice = (Ok tt, s')
    /\ (forall serialNumbers,
          mem_string "X" serialNumbers = false ->
          rescan_forget 20 serialNumbers "X" Fixture.leased_twice
          = (Ok tt, with_log (daemon_log s' ++ [log_rescan_forgot "X"]) s'))
    /\ _acquirer s' = _acquirer s1
    /\ Dict.get (_devinfo s') "X" = None
    /\ Dict.get (_refcount s') "X" = None
    /\ Dict.get (_infos s') (Fixture.phone_info "X") = None.
Proof.
  apply (@forced_removal_releases_one_lease 20 Fixture.leased_twice "X" 2
           (Handle 1) (Fixture.phone_info "X") Fixture.phones).
  - unfold Dict.wf. simpl. constructor; [simpl; tauto | constructor].
  - reflexivity.
  - lia.
  - vm_compute. lia.
  - reflexivity.
  - discriminate.
  - reflexivity.
  - reflexivity.
Defined.

(** After the forced removal of the small installation the ledger still has
    a lease on the device that is gone. *)
Example forced_removal_keeps_second_lease :
  fst (remove 20 "X" true Fixture.leased_twice) = Ok tt
  /\ Dict.keys (_devinfo Fixture.removed) = []
  /\ _acquirer Fixture.removed = [("a", [("X", [10])])].
Proof. repeat split. Qed.

(** ** [release_all] *)

(** An acquirer that is no key of the ledger is unknown to [release_all]. *)
Lemma release_all_unknown_acquirer now acquirer s :
  Dict.get (_acquirer s) acquirer = None ->
  release_all now acquirer s = (Raise (ValueError (unknown_acquirer acquirer)), s).
Proof.
  intros E. unfold release_all, Dict.mem. run_method. now rewrite E.
Qed.

(** C3: acquirer [a] has two leases on [X]; [release_all] returns normally
    and has released one of them only, so [a] still has a lease, is still
    listed by [acquirers] and [X] still counts one lease. *)
Theorem release_all_leaves_second_lease :
  held_by (_acquirer Fixture.leased_twice) "a" "X" = 2%nat
  /\ fst (release_all 30 "a" Fixture.leased_twice) = Ok tt
  /\ held_by (_acquirer (snd (release_all 30 "a" Fixture.leased_twice))) "a" "X" = 1%nat
  /\ fst (acquirers (snd (release_all 30 "a" Fixture.leased_twice))) = Ok ["a"]
  /\ Dict.get (_refcount (snd (release_all 30 "a" Fixture.leased_twice))) "X" = Some 1.
Proof. repeat split. Qed.

(** ** Faults of plugins during [rescan] *)

(** A plugin whose [rescan] raises an [Exception] contributes no device, and
    the pass goes on. *)
Lemma rescan_device_class_fault serialNumbers dc e s :
  dc_rescan dc = Raise e ->
  is_Exception e = true ->
  rescan_device_class serialNumbers dc s
  = (Ok serialNumbers,
     with_log (daemon_log s ++ [log_rescanning_failed (plugin_name dc)]) s).
Proof.
  intros E He. unfold rescan_device_class. run_method. rewrite E, He. reflexivity.
Qed.

(** When [adopt] raises an [Exception], the step that finds a new device
    logs it and returns. *)
Lemma rescan_find_new_returns serialNumber dc e s :
  Dict.get (_devinfo s) serialNumber = None ->
  Dict.get (_g_device_id_class s) serialNumber = Some dc ->
  adopt dc serialNumber = Raise e ->
  is_Exception e = true ->
  rescan_find_new serialNumber s
  = (Ok tt,
     with_log (daemon_log s ++ [log_rescan_failed_connecting serialNumber]) s).
Proof.
  intros Hd Hc Ha He. unfold rescan_find_new, _wolock_add, Dict.mem. run_method.
  rewrite Hd, Hc. simpl. rewrite Ha, He. reflexivity.
Qed.

(** C4: the tablet [T] and the phone [X] are both unplugged; the plugin of
    [T] raises in [abandon].  [rescan] does not catch that: the exception
    leaves [rescan], and [X], whose turn would come next, stays
    registered with [T]. *)
Theorem rescan_aborted_by_abandon_fault :
  fst (rescan 5 Fixture.unplugged) = Raise (PluginException "abandon failed")
  /\ Dict.keys (_devinfo (snd (rescan 5 Fixture.unplugged))) = ["T"; "X"]
  /\ daemon_log (snd (rescan 5 Fixture.unplugged)) = [].
Proof. repeat split. Qed.

(** ** The lists consulted by [add] *)

(** [add] refuses an identifier of the blacklist. *)
Lemma add_blacklisted serialNumber s :
  Dict.get (_g_device_id_class s) serialNumber <> None ->
  mem_string serialNumber (blacklist s) = true ->
  add serialNumber s = (Raise (ValueError (blacklisted serialNumber)), s).
Proof.
  intros Hc Hb. unfold add, Dict.mem. run_method.
  destruct (Dict.get (_g_device_id_class s) serialNumber); [|contradiction].
  simpl. now rewrite Hb.
Qed.

(** C5, as stated, fails: the whitelist holds [A] only, so [rescan] has
    registered [A] and not [B], which the plugin reports too; [add]
    registers [B] all the same. *)
Lemma add_ignores_whitelist :
  whitelist Fixture.whitelisted = ["A"]
  /\ Dict.keys (_refcount Fixture.whitelisted) = ["A"]
  /\ Dict.mem (_g_device_id_class Fixture.whitelisted) "B" = true
  /\ fst (add "B" Fixture.whitelisted) = Ok tt
  /\ Dict.keys (_refcount (snd (add "B" Fixture.whitelisted))) = ["A"; "B"].
Proof. repeat split. Qed.

(** C5, amended: manual addition consults the blacklist and not the
    whitelist.  For every identifier on the blacklist [add] fails, with the
    error for an identifier no plugin has reported or else with the error
    for a blacklisted one; an identifier some plugin has reported, that is
    not on the blacklist, is not registered yet and is adopted by its plugin,
    is registered whatever the whitelist holds; and whatever the whitelist is
    replaced with, [add] does the same. *)
Theorem add_consults_blacklist_only (s : State) (serialNumber : string) :
  (mem_string serialNumber (blacklist s) = true ->
   add serialNumber s
   = (Raise (ValueError
               (if Dict.mem (_g_device_id_class s) serialNumber
                then blacklisted serialNumber
                else not_found serialNumber)), s))
  /\ (forall dc d i,
        Dict.get (_g_device_id_class s) serialNumber = Some dc ->
        mem_string serialNumber (blacklist s) = false ->
        Dict.get (_refcount s) serialNumber = None ->
        adopt dc serialNumber = Ok (d, i) ->
        add serialNumber s
        = (Ok tt,
           with_infos (Dict.set (_infos s) i serialNumber)
             (with_refcount (Dict.set (_refcount s) serialNumber 0)
                (with_devinfo (Dict.set (_devinfo s) serialNumber (d, i)) s))))
  /\ (forall wl,
        add serialNumber (with_whitelist wl s)
        = (fst (add serialNumber s), with_whitelist wl (snd (add serialNumber s)))).
Proof.
  split; [|split].
  - intros Hb. unfold add, Dict.mem. run_method.
    destruct (Dict.get (_g_device_id_class s) serialNumber); simpl;
      [|reflexivity].
    now rewrite Hb.
  - intros dc d i Hc Hb Hr Ha.
    unfold add, _wolock_add, Dict.mem. run_method.
    rewrite Hc. simpl. rewrite Hb, Hr, Hc. simpl. rewrite Ha. reflexivity.
  - intros wl. unfold add, _wolock_add, Dict.mem. run_method.
    destruct (Dict.get (_g_device_id_class s) serialNumber) as [dc|] eqn:Hc; simpl;
      [|reflexivity].
    destruct (mem_string serialNumber (blacklist s)); [reflexivity|].
    destruct (Dict.get (_refcount s) serialNumber); [reflexivity|].
    simpl. rewrite ?Hc. simpl.
    destruct (adopt dc serialNumber) as [[d i]|e]; [reflexivity|].
    destruct (is_Exception e); reflexivity.
Qed.

Lemma add_consults_blacklist_only_witness :
  add "B" Fixture.whitelisted
  = (Ok tt,
     with_infos (Dict.set (_infos Fixture.whitelisted) (Fixture.phone_info "B") "B")
       (with_refcount (Dict.set (_refcount Fixture.whitelisted) "B" 0)
          (with_devinfo
             (Dict.set (_devinfo Fixture.whitelisted) "B"
                (Handle 1, Fixture.phone_info "B"))
             Fixture.whitelisted)))
  /\ add "B" (with_blacklist ["B"; "Q"] Fixture.whitelisted)
     = (Raise (ValueError (blacklisted "B")),
        with_blacklist ["B"; "Q"] Fixture.whitelisted)
  /\ add "Q" (with_blacklist ["B"; "Q"] Fixture.whitelisted)
     = (Raise (ValueError (not_found "Q")),
        with_blacklist ["B"; "Q"] Fixture.whitelisted).
Proof.
  split; [|split].
  - apply (proj1 (proj2 (add_consults_blacklist_only Fixture.whitelisted "B"))
             Fixture.both_seen (Handle 1) (Fixture.phone_info "B"));
      reflexivity.
  - apply (proj1 (add_consults_blacklist_only
                    (with_blacklist ["B"; "Q"] Fixture.whitelisted) "B")).
    reflexivity.
  - apply (proj1 (add_consults_blacklist_only
                    (with_blacklist ["B"; "Q"] Fixture.whitelisted) "Q")).
    reflexivity.
Defined.

(** ** The lease count and the ledger *)

Lemma wolock_acquire_run now key acquirer s rc :
  Dict.get (_refcount s) key = Some rc ->
  _wolock_acquire now key acquirer s
  = (Ok tt,
     with_acquirer (ledger_push (_acquirer s) acquirer key now)
       (with_refcount (Dict.set (_refcount s) key (rc + 1)) s)).
Proof.
  intros Hrc. unfold _wolock_acquire, ledger_push. run_method. rewrite Hrc. simpl.
  destruct (Dict.get (_acquirer s) acquirer) as [held|]; [|reflexivity].
  destruct (Dict.get held key); reflexivity.
Qed.

Lemma wolock_acquire_unregistered now key acquirer s :
  Dict.get (_refcount s) key = None ->
  _wolock_acquire now key acquirer s = (Raise KeyError, s).
Proof.
  intros Hrc. unfold _wolock_acquire. run_method. now rewrite Hrc.
Qed.

Lemma ledger_push_wf acq a key now : Dict.wf acq -> Dict.wf (ledger_push acq a key now).
Proof.
  intros Hwf. unfold ledger_push.
  destruct (Dict.get acq a) as [held|]; [destruct (Dict.get held key)|];
    auto using wf_set.
Qed.

Lemma ledger_push_count acq a key now :
  ledger_count (ledger_push acq a key now) key = S (ledger_count acq key).
Proof.
  unfold ledger_push.
  destruct (Dict.get acq a) as [held|] eqn:Ea.
  - destruct (Dict.get held key) as [stamps|] eqn:Ek.
    + pose proof (@ledger_count_set acq a held
                    (Dict.set held key (stamps ++ [now])) key Ea) as Hs.
      rewrite leases_set_same, length_app in Hs.
      unfold leases in Hs at 1. rewrite Ek in Hs. simpl in Hs. lia.
    + pose proof (@ledger_count_set acq a held (Dict.set held key [now]) key Ea) as Hs.
      rewrite leases_set_same in Hs.
      unfold leases in Hs at 1. rewrite Ek in Hs. simpl in Hs. lia.
  - rewrite (@ledger_count_set_new acq a [(key, [now])] key Ea).
    unfold leases. simpl. rewrite String.eqb_refl. simpl. lia.
Qed.

Lemma ledger_push_count_other acq a key key' now :
  key <> key' ->
  ledger_count (ledger_push acq a key now) key' = ledger_count acq key'.
Proof.
  intros Hne. unfold ledger_push.
  destruct (Dict.get acq a) as [held|] eqn:Ea.
  - destruct (Dict.get held key) as [stamps|] eqn:Ek.
    + pose proof (@ledger_count_set acq a held
                    (Dict.set held key (stamps ++ [now])) key' Ea) as Hs.
      rewrite leases_set_other in Hs by assumption. lia.
    + pose proof (@ledger_count_set acq a held (Dict.set held key [now]) key' Ea) as Hs.
      rewrite leases_set_other in Hs by assumption. lia.
  - rewrite (@ledger_count_set_new acq a [(key, [now])] key' Ea).
    unfold leases. simpl.
    apply not_eq_sym in Hne. apply String.eqb_neq in Hne. rewrite Hne. lia.
Qed.

(** [_wolock_release] either leaves the state as it is, raising, or pops one
    lease of an acquirer that has one. *)
Lemma wolock_release_cases now key acquirer s :
  snd (_wolock_release now key acquirer s) = s
  \/ exists a rc held t stamps,
       Dict.get (_refcount s) key = Some rc
       /\ Dict.get (_acquirer s) a = Some held
       /\ Dict.get held key = Some (t :: stamps)
       /\ _wolock_release now key acquirer s
          = (Ok tt,
             with_log (daemon_log s ++ [log_released a key (now - last (t :: stamps) 0)])
               (with_acquirer (ledger_pop (_acquirer s) a key held (t :: stamps))
                  (with_refcount (Dict.set (_refcount s) key (rc - 1)) s))).
Proof.
  destruct (Dict.get (_refcount s) key) as [rc|] eqn:Hrc.
  2:{ left. unfold _wolock_release. run_method. now rewrite Hrc. }
  destruct (rc =? 0) eqn:Hz.
  { left. unfold _wolock_release. run_method. rewrite Hrc. simpl. now rewrite Hz. }
  apply Z.eqb_neq in Hz.
  assert (Hfail : forall o,
             o = match acquirer with
                 | Some a => Some a
                 | None => find_acquirer (_acquirer s) key
                 end ->
             match o with
             | None => True
             | Some a =>
                 match Dict.get (_acquirer s) a with
                 | None => True
                 | Some held =>
                     match Dict.get held key with
                     | Some (_ :: _) => False
                     | _ => True
                     end
                 end
             end ->
             snd (_wolock_release now key acquirer s) = s).
  { intros o -> Hno. unfold _wolock_release. run_method. rewrite Hrc. simpl.
    apply Z.eqb_neq in Hz. rewrite Hz. simpl.
    destruct (match acquirer with
              | Some a => Some a
              | None => find_acquirer (_acquirer s) key
              end) as [a|]; [|reflexivity].
    destruct (Dict.get (_acquirer s) a) as [held|]; [|reflexivity].
    destruct (Dict.get held key) as [[|t stamps]|]; try reflexivity.
    contradiction. }
  destruct (match acquirer with
            | Some a => Some a
            | None => find_acquirer (_acquirer s) key
            end) as [a|] eqn:Eo.
  2:{ left. apply (Hfail None); auto. }
  destruct (Dict.get (_acquirer s) a) as [held|] eqn:Ea.
  2:{ left. apply (Hfail (Some a)); auto. now rewrite Ea. }
  destruct (Dict.get held key) as [[|t stamps]|] eqn:Ek.
  1,3: left; apply (Hfail (Some a)); auto; now rewrite Ea, Ek.
  right. exists a, rc, held, t, stamps. repeat split; auto.
  apply wolock_release_run; auto.
  destruct acquirer as [a'|]; [left; congruence | right; auto].
Qed.

Lemma preserves_reads_only {A} P (m : M A) : reads_only m -> preserves P m.
Proof. intros Hm s Hs. now rewrite Hm. Qed.

Lemma preserves_bind {A B} P (m : M A) (f : A -> M B) :
  preserves P m -> (forall a, preserves P (f a)) -> preserves P (bind m f).
Proof.
  intros Hm Hf s Hs. unfold bind. specialize (Hm s Hs).
  destruct (m s) as [[a|e] s0]; simpl in *; auto. now apply Hf.
Qed.

Lemma preserves_for_each {A} P (xs : list A) (body : A -> M unit) :
  (forall x, preserves P (body x)) -> preserves P (for_each xs body).
Proof.
  intros Hb. induction xs as [|x xs IH]; simpl.
  - intros s Hs. exact Hs.
  - apply preserves_bind; auto.
Qed.

Lemma preserves_log (e : log_event) : preserves ledger_ok (daemon_log_line e).
Proof. intros s Hs. exact Hs. Qed.

Lemma wolock_acquire_preserves now key acquirer :
  preserves ledger_ok (_wolock_acquire now key acquirer).
Proof.
  intros s [Hwf Hinv].
  destruct (Dict.get (_refcount s) key) as [rc|] eqn:Hrc.
  - rewrite (@wolock_acquire_run now key acquirer s rc Hrc). simpl. split; simpl.
    + now apply ledger_push_wf.
    + intros key' rc'. simpl.
      destruct (String.eqb_spec key key') as [<-|Hne].
      * rewrite get_set_same, ledger_push_count. intros [= <-].
        rewrite (Hinv _ _ Hrc). lia.
      * rewrite get_set_other, ledger_push_count_other by assumption. apply Hinv.
  - rewrite (@wolock_acquire_unregistered now key acquirer s Hrc). now split.
Qed.

Lemma wolock_release_preserves now key acquirer :
  preserves ledger_ok (_wolock_release now key acquirer).
Proof.
  intros s [Hwf Hinv].
  destruct (wolock_release_cases now key acquirer s)
    as [->|[a [rc [held [t [stamps [Hrc [Ha [Hk ->]]]]]]]]]; [now split|].
  split; simpl.
  - now apply ledger_pop_wf.
  - intros key' rc'. simpl.
    destruct (String.eqb_spec key key') as [<-|Hne].
    + rewrite get_set_same. intros [= <-].
      pose proof (@ledger_pop_count _ a key held t stamps Hwf Ha Hk) as Hc.
      rewrite (Hinv _ _ Hrc). lia.
    + rewrite get_set_other by assumption.
      rewrite (@ledger_pop_count_other _ a key key' held t stamps Hwf Ha Hne).
      apply Hinv.
Qed.

Lemma reads_only_raise_if b e : reads_only (raise_if b e).
Proof. destruct b; intro s; reflexivity. Qed.

Lemma reads_only_validate key : reads_only (_validate key).
Proof. unfold _validate. reads. apply reads_only_raise_if. Qed.

Lemma release_preserves now key acquirer :
  preserves ledger_ok (release now key acquirer).
Proof.
  unfold release. apply preserves_bind.
  - apply preserves_reads_only, reads_only_validate.
  - intros _. apply wolock_release_preserves.
Qed.

Lemma release_all_preserves now acquirer :
  preserves ledger_ok (release_all now acquirer).
Proof.
  unfold release_all.
  apply preserves_bind; [apply preserves_reads_only, reads_only_gets | intros acq].
  apply preserves_bind; [apply preserves_reads_only, reads_only_raise_if | intros _].
  apply preserves_bind; [apply preserves_reads_only, reads_only_gets | intros acq'].
  apply preserves_bind; [apply preserves_reads_only, reads_only_subscript | intros held].
  apply preserves_for_each. intros key. apply wolock_release_preserves.
Qed.

Section AcquirePreserves.
Variable re_match : string -> string -> option bool.

Lemma acquire_loop_preserves fuel block acquirer matchArgs now rnd :
  preserves ledger_ok (acquire_loop re_match fuel block acquirer matchArgs now rnd).
Proof.
  induction fuel as [|fuel IH]; simpl.
  - intros s Hs. exact Hs.
  - apply preserves_bind;
      [apply preserves_reads_only, reads_only_wolock_match | intros serials].
    destruct serials as [|x serials]; [intros s Hs; exact Hs|].
    apply preserves_bind;
      [apply preserves_reads_only, reads_only_matching_available | intros avail].
    destruct avail as [|y avail].
    + destruct block; simpl; [|intros s Hs; exact Hs].
      apply preserves_bind; [apply preserves_log | intros _; exact IH].
    + apply preserves_bind; [apply wolock_acquire_preserves | intros _].
      apply preserves_bind; [apply preserves_log | intros _].
      intros s Hs. exact Hs.
Qed.

(** X16: every [acquire], [release] and [release_all], whether it returns or
    raises, keeps the lease counts equal to the numbers of leases in the
    ledger. *)
Lemma acquire_release_preserve_lease_invariant :
  (forall fuel block acquirer matchArgs now rnd,
      preserves ledger_ok (acquire re_match fuel block acquirer matchArgs now rnd))
  /\ (forall now key acquirer, preserves ledger_ok (release now key acquirer))
  /\ (forall now acquirer, preserves ledger_ok (release_all now acquirer)).
Proof.
  split; [|split].
  - intros. unfold acquire. apply acquire_loop_preserves.
  - apply release_preserves.
  - apply release_all_preserves.
Qed.

End AcquirePreserves.

(** C7: on a device a plugin shares between two users, acquirer [a] takes
    two leases on [X], [X] is removed by force and added again.  Every call
    returns normally, and at the end [X] is registered with a lease count of
    zero while the ledger records one lease of [a] on it. *)
Theorem lease_count_differs_from_ledger :
  fst (init 0 Fixture.empty) = Ok tt
  /\ ledger_ok Fixture.started
  /\ fst (acquire literal_re_match 1 false (Some "a") [("id", "X")] 10 0 Fixture.started)
     = Ok (Some (Some "X"))
  /\ fst (acquire literal_re_match 1 false (Some "a") [("id", "X")] 11 0
            Fixture.leased_once)
     = Ok (Some (Some "X"))
  /\ fst (remove 20 "X" true Fixture.leased_twice) = Ok tt
  /\ fst (add "X" Fixture.removed) = Ok tt
  /\ Dict.get (_refcount Fixture.added_again) "X" = Some 0
  /\ ledger_count (_acquirer Fixture.added_again) "X" = 1%nat
  /\ ~ lease_invariant Fixture.added_again.
Proof.
  split; [reflexivity|]. split.
  { split; [constructor|].
    intros key rc.
    change (_refcount Fixture.started) with [("X", 0)].
    change (_acquirer Fixture.started)
      with (@nil (string * dict string (list timestamp))).
    simpl. destruct (String.eqb key "X"); [|discriminate].
    intros [= <-]. reflexivity. }
  repeat split.
  intros Hinv. specialize (Hinv "X" 0 eq_refl). vm_compute in Hinv. discriminate.
Qed.

(** * Further properties of the registry *)

(** ** More on dictionaries and states *)

Section DictRoundTrips.
Context {K V : Type} `{EqKey K}.
Implicit Types (d : dict K V) (k : K) (v : V).

Lemma set_set d k v v' : Dict.set (Dict.set d k v) k v' = Dict.set d k v'.
Proof.
  induction d as [|[k0 v0] d IH]; simpl.
  - now rewrite keqb_refl.
  - destruct (keqb k k0) eqn:E; simpl; rewrite E; [reflexivity | now rewrite IH].
Qed.

Lemma set_get_same d k v : Dict.get d k = Some v -> Dict.set d k v = d.
Proof.
  induction d as [|[k0 v0] d IH]; simpl; [discriminate|].
  destruct (keqb k k0) eqn:E.
  - now intros [= ->].
  - intros Hg. now rewrite IH.
Qed.

Lemma del_set_new d k v : Dict.get d k = None -> Dict.del (Dict.set d k v) k = d.
Proof.
  induction d as [|[k0 v0] d IH]; simpl.
  - intros _. now rewrite keqb_refl.
  - destruct (keqb k k0) eqn:E; [discriminate|].
    intros Hg. simpl. rewrite E. now rewrite IH.
Qed.

Lemma set_nonempty d k v : Dict.set d k v <> [].
Proof. destruct d as [|[k0 v0] d]; simpl; [|destruct (keqb k k0)]; discriminate. Qed.
End DictRoundTrips.

Lemma with_log_same s : with_log (daemon_log s) s = s.
Proof. destruct s; reflexivity. Qed.

Lemma list_remove_last x l :
  mem_string x l = false -> list_remove x (l ++ [x]) = l.
Proof.
  induction l as [|y l IH]; simpl.
  - intros _. now rewrite String.eqb_refl.
  - destruct (String.eqb x y) eqn:E; simpl; [discriminate|].
    intros Hm. now rewrite IH.
Qed.

Lemma mem_string_app_last x l : mem_string x (l ++ [x]) = true.
Proof. apply mem_string_In, in_or_app. right. left. reflexivity. Qed.

(** ** Identifiers the registry does not know *)

(** X1: an identifier that is not registered is refused by [info], [available],
    [release] and [remove] with the error for an unknown device, while
    [acquired], which does not validate its argument, fails on the subscript
    with a [KeyError]; none of them changes anything. *)
Theorem unregistered_identifier_errors (s : State) (key : string) :
  Dict.get (_refcount s) key = None ->
  info key s = (Raise (ValueError (unknown_device key)), s)
  /\ available key s = (Raise (ValueError (unknown_device key)), s)
  /\ (forall now acquirer,
        release now key acquirer s = (Raise (ValueError (unknown_device key)), s))
  /\ (forall now force,
        remove now key force s = (Raise (ValueError (unknown_device key)), s))
  /\ acquired key s = (Raise KeyError, s).
Proof.
  intros Hrc. pose proof (validate_unregistered _ _ Hrc) as Hv.
  repeat split; intros.
  - unfold info. now rewrite (@bind_raise _ _ _ _ _ _ _ Hv).
  - unfold available. now rewrite (@bind_raise _ _ _ _ _ _ _ Hv).
  - unfold release. now rewrite (@bind_raise _ _ _ _ _ _ _ Hv).
  - unfold remove. now rewrite (@bind_raise _ _ _ _ _ _ _ Hv).
  - unfold acquired. run_method. now rewrite Hrc.
Qed.

Lemma unregistered_identifier_errors_witness :
  info "Y" Fixture.started = (Raise (ValueError (unknown_device "Y")), Fixture.started)
  /\ acquired "Y" Fixture.started = (Raise KeyError, Fixture.started).
Proof.
  destruct (@unregistered_identifier_errors Fixture.started "Y" eq_refl)
    as [Hi [_ [_ [_ Ha]]]].
  split; assumption.
Defined.

(** ** Failures of [release] *)

(** X2: [release] raises the error for a device that is not acquired when the
    lease count is zero, and the error naming the acquirer when the count is
    positive but this acquirer has no lease on the device; and whenever
    [release] raises, whatever the reason, the state is the one it was
    called in. *)
Theorem release_failures (now : timestamp) (s : State) (key : string) :
  (forall acquirer,
      Dict.get (_refcount s) key = Some 0 ->
      release now key acquirer s = (Raise (ValueError (not_acquired key)), s))
  /\ (forall a rc,
        Dict.get (_refcount s) key = Some rc ->
        rc <> 0 ->
        held_by (_acquirer s) a key = 0%nat ->
        release now key (Some a) s
        = (Raise (ValueError (has_not_acquired (Some a) key)), s))
  /\ (forall acquirer e,
        fst (release now key acquirer s) = Raise e ->
        snd (release now key acquirer s) = s).
Proof.
  split; [|split].
  - intros acquirer Hrc. unfold release.
    rewrite (@bind_ok _ _ _ _ _ _ _ (validate_registered _ _ Hrc)).
    unfold _wolock_release. run_method. now rewrite Hrc.
  - intros a rc Hrc Hnz Hheld. unfold release.
    rewrite (@bind_ok _ _ _ _ _ _ _ (validate_registered _ _ Hrc)).
    unfold _wolock_release. run_method. rewrite Hrc. simpl.
    apply Z.eqb_neq in Hnz. rewrite Hnz. simpl.
    unfold held_by, leases in Hheld.
    destruct (Dict.get (_acquirer s) a) as [held|]; [|reflexivity].
    destruct (Dict.get held key) as [[|t stamps]|]; try reflexivity.
    discriminate.
  - intros acquirer e. unfold release, bind.
    pose proof (reads_only_validate key s) as Hv.
    destruct (_validate key s) as [[[]|e0] s0]; simpl in Hv; subst s0; [|reflexivity].
    destruct (wolock_release_cases now key acquirer s)
      as [Hsame|[a [rc [held [t [stamps [_ [_ [_ Hrun]]]]]]]]].
    + intros _. exact Hsame.
    + rewrite Hrun. discriminate.
Qed.

Lemma release_failures_witness :
  release 30 "X" (Some "a") Fixture.started
  = (Raise (ValueError (not_acquired "X")), Fixture.started)
  /\ release 30 "X" (Some "b") Fixture.leased_twice
     = (Raise (ValueError (has_not_acquired (Some "b") "X")), Fixture.leased_twice)
  /\ snd (release 30 "X" None Fixture.started) = Fixture.started.
Proof.
  split; [|split].
  - apply (proj1 (release_failures 30 Fixture.started "X")). reflexivity.
  - apply (proj1 (proj2 (release_failures 30 Fixture.leased_twice "X")) "b" 2).
    + reflexivity.
    + discriminate.
    + reflexivity.
  - apply (proj2 (proj2 (release_failures 30 Fixture.started "X"))
             None (ValueError (not_acquired "X"))).
    reflexivity.
Defined.

(** ** The blacklist *)

(** X3: including an identifier that is not on the blacklist and excluding it
    again gives back the state one started from.  While it is included, a
    second include is refused and [add] fails: with the error for a
    blacklisted identifier when some plugin has reported it, and with the
    error for an identifier that is not found when none has.  Including an
    identifier twice, or excluding one that is not listed, raises and
    changes nothing. *)
Theorem blacklist_include_exclude (s : State) (serialNumber : string) :
  (mem_string serialNumber (blacklist s) = false ->
   let s1 := with_blacklist (blacklist s ++ [serialNumber]) s in
   blacklist_include serialNumber s = (Ok tt, s1)
   /\ blacklist_include serialNumber s1
      = (Raise (ValueError (already_blacklisted serialNumber)), s1)
   /\ add serialNumber s1
      = (Raise (ValueError
                  (if Dict.mem (_g_device_id_class s) serialNumber
                   then blacklisted serialNumber
                   else not_found serialNumber)), s1)
   /\ blacklist_exclude serialNumber s1 = (Ok tt, s)
   /\ blacklist_exclude serialNumber s
      = (Raise (ValueError (not_blacklisted serialNumber)), s))
  /\ (mem_string serialNumber (blacklist s) = true ->
      blacklist_include serialNumber s
      = (Raise (ValueError (already_blacklisted serialNumber)), s)).
Proof.
  split.
  - intros Hm s1. subst s1. repeat split.
    + unfold blacklist_include. run_method. now rewrite Hm.
    + unfold blacklist_include. run_method. now rewrite mem_string_app_last.
    + unfold add, Dict.mem. run_method.
      destruct (Dict.get (_g_device_id_class s) serialNumber); simpl;
        [|reflexivity].
      now rewrite mem_string_app_last.
    + unfold blacklist_exclude. run_method. rewrite mem_string_app_last. simpl.
      rewrite (list_remove_last _ _ Hm). destruct s; reflexivity.
    + unfold blacklist_exclude. run_method. now rewrite Hm.
  - intros Hm. unfold blacklist_include. run_method. now rewrite Hm.
Qed.

Lemma blacklist_include_exclude_witness :
  (blacklist_include "X" Fixture.started
   = (Ok tt, with_blacklist ["X"] Fixture.started)
   /\ add "X" (with_blacklist ["X"] Fixture.started)
      = (Raise (ValueError (blacklisted "X")), with_blacklist ["X"] Fixture.started)
   /\ blacklist_exclude "X" (with_blacklist ["X"] Fixture.started)
      = (Ok tt, Fixture.started))
  /\ add "Q" (with_blacklist ["Q"] Fixture.started)
     = (Raise (ValueError (not_found "Q")), with_blacklist ["Q"] Fixture.started).
Proof.
  split.
  - destruct (proj1 (blacklist_include_exclude Fixture.started "X") eq_refl)
      as [Hi [_ [Ha [He _]]]].
    split; [exact Hi|]. split; [exact Ha | exact He].
  - destruct (proj1 (blacklist_include_exclude Fixture.started "Q") eq_refl)
      as [_ [_ [Ha _]]].
    exact Ha.
Defined.

(** ** Adding and removing by hand *)

(** X4: take an identifier that a plugin reported, that is not on the
    blacklist and that the registry does not hold (no entry in [_refcount]
    nor in [_devinfo]), a plugin whose [adopt] returns for it a description
    that is not yet a key of the reverse index [_infos], and whose [abandon]
    returns.  Then [add] registers the device with a lease count of zero and
    that description; a second [add] is refused; and a [remove] without
    force gives back the state from before the [add], one log line apart.
    Without the condition on [_infos] the last part fails: [add] overwrites
    the entry of the description and [remove] deletes it. *)
Theorem add_then_remove (now : timestamp) (s : State) (serialNumber : string)
    (dc : DeviceClass) (d : DeviceObj) (i : DeviceInfo) :
  Dict.get (_g_device_id_class s) serialNumber = Some dc ->
  mem_string serialNumber (blacklist s) = false ->
  Dict.get (_refcount s) serialNumber = None ->
  Dict.get (_devinfo s) serialNumber = None ->
  Dict.get (_infos s) i = None ->
  adopt dc serialNumber = Ok (d, i) ->
  abandon dc i d = Ok tt ->
  exists s1,
    add serialNumber s = (Ok tt, s1)
    /\ Dict.get (_refcount s1) serialNumber = Some 0
    /\ info serialNumber s1 = (Ok (info_dict i), s1)
    /\ add serialNumber s1 = (Raise (ValueError (already_added serialNumber)), s1)
    /\ remove now serialNumber false s1
       = (Ok tt, with_log (daemon_log s ++ [log_removed serialNumber]) s).
Proof.
  intros Hc Hb Hr Hd Hi Ha Hab.
  destruct s as [wl bl dcs cls di rcs acq infos lg]. simpl in *.
  eexists. split; [|split; [|split; [|split]]].
  - unfold add, _wolock_add, Dict.mem. run_method.
    repeat (progress (rewrite ?Hc, ?Hb, ?Hr, ?Ha; simpl)). reflexivity.
  - simpl. apply get_set_same.
  - unfold info, _validate, Dict.mem. run_method.
    repeat (progress (rewrite ?get_set_same; simpl)). reflexivity.
  - unfold add, Dict.mem. run_method.
    repeat (progress (rewrite ?Hc, ?Hb, ?get_set_same; simpl)). reflexivity.
  - unfold remove, _wolock_remove, _validate, Dict.mem. run_method.
    repeat (progress (run_method; unfold Dict.mem;
                      rewrite ?get_set_same, ?Hc, ?Hab; simpl)).
    rewrite !del_set_new by assumption. reflexivity.
Qed.

Lemma add_then_remove_witness :
  exists s1,
    add "B" Fixture.whitelisted = (Ok tt, s1)
    /\ Dict.get (_refcount s1) "B" = Some 0
    /\ info "B" s1 = (Ok (info_dict (Fixture.phone_info "B")), s1)
    /\ add "B" s1 = (Raise (ValueError (already_added "B")), s1)
    /\ remove 7 "B" false s1
       = (Ok tt,
          with_log (daemon_log Fixture.whitelisted ++ [log_removed "B"])
            Fixture.whitelisted).
Proof.
  apply (@add_then_remove 7 Fixture.whitelisted "B" Fixture.both_seen
           (Handle 1) (Fixture.phone_info "B")); reflexivity.
Defined.

(** ** Removal without force *)

Ltac split_method :=
  repeat (match goal with
          | |- context [match Dict.get ?d ?k with _ => _ end] =>
              destruct (Dict.get d k) eqn:?
          | |- context [match abandon ?a ?b ?c with _ => _ end] =>
              destruct (abandon a b c) as [[]|] eqn:?
          | |- context [let (_, _) := ?p in _] => destruct p
          end;
          simpl; run_method; unfold Dict.mem; simpl).

(** X5: [remove] without force refuses a device that has leases and changes
    nothing then; and in every case, whether it returns or raises, it leaves
    the ledger and the lease counts of the other devices as they were. *)
Theorem remove_without_force (now : timestamp) (s : State) (serialNumber : string) :
  (forall rc,
      Dict.get (_refcount s) serialNumber = Some rc ->
      0 < rc ->
      remove now serialNumber false s
      = (Raise (ValueError (is_busy serialNumber)), s))
  /\ _acquirer (snd (remove now serialNumber false s)) = _acquirer s
  /\ (forall key,
        key <> serialNumber ->
        Dict.get (_refcount (snd (remove now serialNumber false s))) key
        = Dict.get (_refcount s) key).
Proof.
  split.
  - intros rc Hrc Hpos. apply Z.gtb_lt in Hpos.
    unfold remove, _validate, Dict.mem. run_method.
    repeat (progress (rewrite ?Hrc, ?Hpos; simpl)). reflexivity.
  - unfold remove, _wolock_remove, _validate, Dict.mem. run_method.
    destruct (Dict.get (_refcount s) serialNumber) as [rc|] eqn:Hrc; simpl;
      [|split; reflexivity].
    repeat (progress (rewrite ?Hrc; simpl)).
    destruct (rc >? 0) eqn:Hpos; simpl; [split; reflexivity|].
    repeat (progress (rewrite ?Hrc, ?Hpos; simpl)).
    split_method; (split; [reflexivity|]); intros key Hne;
      try reflexivity; apply get_del_other; congruence.
Qed.

Lemma remove_without_force_witness :
  remove 9 "X" false Fixture.leased_once
  = (Raise (ValueError (is_busy "X")), Fixture.leased_once).
Proof.
  apply (proj1 (remove_without_force 9 Fixture.leased_once "X") 1).
  - reflexivity.
  - lia.
Defined.

(** ** Entries of the ledger are never empty *)

Lemma In_insert_sorted x y l : In x (insert_sorted y l) <-> x = y \/ In x l.
Proof.
  induction l as [|z l IH]; simpl.
  - split; [intros [->|[]]; auto | intros [->|[]]; auto].
  - destruct (String.leb y z); simpl.
    + split; [intros [->|Hin]; auto | intros [->|Hin]; auto].
    + rewrite IH. split; [intros [->|[->|Hin]]; auto | intros [->|[->|Hin]]; auto].
Qed.

Lemma In_sorted x l : In x (sorted l) <-> In x l.
Proof.
  unfold sorted. induction l as [|y l IH]; simpl; [tauto|].
  rewrite In_insert_sorted, IH. split; [intros [->|Hin] | intros [->|Hin]]; auto.
Qed.

Lemma ledger_push_normal acq a key now :
  ledger_normal acq -> ledger_normal (ledger_push acq a key now).
Proof.
  intros Hn a' held'. unfold ledger_push.
  destruct (String.eqb_spec a a') as [<-|Hne].
  - destruct (Dict.get acq a) as [held|] eqn:Ea.
    + destruct (Hn _ _ Ea) as [_ Hin].
      destruct (Dict.get held key) as [stamps|] eqn:Ek;
        rewrite get_set_same; intros [= <-];
        (split; [apply set_nonempty|]); intros k st;
        (destruct (String.eqb_spec key k) as [<-|Hk];
         [rewrite get_set_same; intros [= <-]
         |rewrite get_set_other by assumption; apply Hin]).
      * destruct stamps; discriminate.
      * discriminate.
    + rewrite get_set_same. intros [= <-]. split; [discriminate|].
      intros k st. simpl. destruct (String.eqb k key); [|discriminate].
      intros [= <-]. discriminate.
  - assert (Hget : forall X, Dict.get (Dict.set acq a X) a' = Dict.get acq a')
      by (intros; now apply get_set_other).
    destruct (Dict.get acq a) as [held|]; [destruct (Dict.get held key)|];
      rewrite Hget; apply Hn.
Qed.

Lemma ledger_pop_normal acq a key held stamps :
  ledger_normal acq ->
  Dict.get acq a = Some held ->
  ledger_normal (ledger_pop acq a key held stamps).
Proof.
  intros Hn Ea a' held'. unfold ledger_pop.
  destruct (Hn _ _ Ea) as [_ Hin].
  destruct (String.eqb_spec a a') as [<-|Hne].
  - destruct (removelast stamps) as [|t' st'].
    + destruct (Dict.del held key) as [|e h] eqn:Ed.
      * rewrite get_del_same. discriminate.
      * rewrite get_set_same. intros [= <-]. split; [discriminate|].
        rewrite <- Ed. intros k st.
        destruct (String.eqb_spec key k) as [<-|Hk].
        -- rewrite get_del_same. discriminate.
        -- rewrite get_del_other by assumption. apply Hin.
    + rewrite get_set_same. intros [= <-]. split; [apply set_nonempty|].
      intros k st. destruct (String.eqb_spec key k) as [<-|Hk].
      * rewrite get_set_same. intros [= <-]. discriminate.
      * rewrite get_set_other by assumption. apply Hin.
  - destruct (removelast stamps) as [|t' st'];
      [destruct (Dict.del held key)|];
      rewrite ?get_del_other, ?get_set_other by assumption; apply Hn.
Qed.

(** What [_wolock_acquire] and [_wolock_release] keep, and the log does not
    matter to, the methods of the leasing protocol keep. *)
Lemma leasing_preserves (P : State -> Prop) :
  (forall e, preserves P (daemon_log_line e)) ->
  (forall now key a, preserves P (_wolock_acquire now key a)) ->
  (forall now key a, preserves P (_wolock_release now key a)) ->
  (forall re_match fuel block acquirer matchArgs now rnd,
      preserves P (acquire re_match fuel block acquirer matchArgs now rnd))
  /\ (forall now key acquirer, preserves P (release now key acquirer))
  /\ (forall now acquirer, preserves P (release_all now acquirer)).
Proof.
  intros Hlog Hacq Hrel. split; [|split].
  - intros re_match fuel block acquirer matchArgs now rnd. unfold acquire.
    induction fuel as [|fuel IH]; simpl.
    + intros s Hs. exact Hs.
    + apply preserves_bind;
        [apply preserves_reads_only, reads_only_wolock_match | intros serials].
      destruct serials as [|x serials]; [intros s Hs; exact Hs|].
      apply preserves_bind;
        [apply preserves_reads_only, reads_only_matching_available | intros avail].
      destruct avail as [|y avail].
      * destruct block; simpl; [|intros s Hs; exact Hs].
        apply preserves_bind; [apply Hlog | intros _; exact IH].
      * apply preserves_bind; [apply Hacq | intros _].
        apply preserves_bind; [apply Hlog | intros _].
        intros s Hs. exact Hs.
  - intros now key acquirer. unfold release. apply preserves_bind.
    + apply preserves_reads_only, reads_only_validate.
    + intros _. apply Hrel.
  - intros now acquirer. unfold release_all.
    apply preserves_bind; [apply preserves_reads_only, reads_only_gets | intros acq].
    apply preserves_bind; [apply preserves_reads_only, reads_only_raise_if | intros _].
    apply preserves_bind; [apply preserves_reads_only, reads_only_gets | intros acq'].
    apply preserves_bind; [apply preserves_reads_only, reads_only_subscript | intros held].
    apply preserves_for_each. intros key. apply Hrel.
Qed.

(** X6: [acquire], [release] and [release_all] never leave in the ledger an
    acquirer without a device or a device without a timestamp; so every
    acquirer that [acquirers] lists has a lease on some device. *)
Theorem ledger_entries_never_empty :
  ((forall re_match fuel block acquirer matchArgs now rnd,
       preserves (fun s => ledger_normal (_acquirer s))
         (acquire re_match fuel block acquirer matchArgs now rnd))
   /\ (forall now key acquirer,
         preserves (fun s => ledger_normal (_acquirer s)) (release now key acquirer))
   /\ (forall now acquirer,
         preserves (fun s => ledger_normal (_acquirer s)) (release_all now acquirer)))
  /\ (forall s listed a,
        ledger_normal (_acquirer s) ->
        fst (acquirers s) = Ok listed ->
        In a listed ->
        exists key, (0 < held_by (_acquirer s) a key)%nat).
Proof.
  split.
  - apply leasing_preserves.
    + intros e s Hs. exact Hs.
    + intros now key a s Hs.
      destruct (Dict.get (_refcount s) key) as [rc|] eqn:Hrc.
      * rewrite (@wolock_acquire_run now key a s rc Hrc). simpl.
        now apply ledger_push_normal.
      * now rewrite (@wolock_acquire_unregistered now key a s Hrc).
    + intros now key acquirer s Hs.
      destruct (wolock_release_cases now key acquirer s)
        as [->|[a [rc [held [t [stamps [_ [Ha [_ ->]]]]]]]]]; [exact Hs|].
      simpl. now apply ledger_pop_normal.
  - intros s listed a Hn Hl Hin. injection Hl as <-.
    apply In_sorted, get_in_keys in Hin.
    unfold held_by, leases.
    destruct (Dict.get (_acquirer s) a) as [held|] eqn:Ea; [|contradiction].
    destruct (Hn _ _ Ea) as [Hne Hst].
    destruct held as [|[k st] held]; [contradiction|].
    exists k. simpl. rewrite String.eqb_refl.
    specialize (Hst k st). simpl in Hst. rewrite String.eqb_refl in Hst.
    specialize (Hst eq_refl). destruct st; [contradiction | simpl; lia].
Qed.

Lemma ledger_normal_leased_twice : ledger_normal (_acquirer Fixture.leased_twice).
Proof.
  change (_acquirer Fixture.leased_twice) with [("a", [("X", [10; 11])])].
  intros a held. simpl. destruct (String.eqb a "a"); [|discriminate].
  intros [= <-]. split; [discriminate|].
  intros key stamps. simpl. destruct (String.eqb key "X"); [|discriminate].
  intros [= <-]. discriminate.
Qed.

Lemma ledger_entries_never_empty_witness :
  ledger_normal (_acquirer (snd (release 30 "X" (Some "a") Fixture.leased_twice)))
  /\ exists key, (0 < held_by (_acquirer Fixture.leased_twice) "a" key)%nat.
Proof.
  split.
  - apply (proj1 (proj2 (proj1 ledger_entries_never_empty)) 30 "X" (Some "a")
             Fixture.leased_twice ledger_normal_leased_twice).
  - apply (proj2 ledger_entries_never_empty Fixture.leased_twice ["a"] "a"
             ledger_normal_leased_twice eq_refl).
    left. reflexivity.
Defined.

(** ** Methods that ignore the log *)

Lemma log_blind_run {A} (m : M A) s : log_blind m -> m s = (fst (m s), s).
Proof.
  intros Hm. specialize (Hm (daemon_log s) s).
  now rewrite with_log_same in Hm.
Qed.

Lemma log_blind_ret {A} (a : A) : log_blind (ret a).
Proof. intros l s; reflexivity. Qed.

Lemma log_blind_raise {A} (e : exn) : log_blind (@raise A e).
Proof. intros l s; reflexivity. Qed.

Lemma log_blind_subscript {A} (o : option A) : log_blind (subscript o).
Proof. intros l s; destruct o; reflexivity. Qed.

Lemma log_blind_raise_if b e : log_blind (raise_if b e).
Proof. intros l s; destruct b; reflexivity. Qed.

Lemma log_blind_gets {A} (f : State -> A) :
  (forall l s, f (with_log l s) = f s) -> log_blind (gets f).
Proof. intros Hf l s. unfold gets. simpl. now rewrite Hf. Qed.

Lemma log_blind_bind {A B} (m : M A) (f : A -> M B) :
  log_blind m -> (forall a, log_blind (f a)) -> log_blind (bind m f).
Proof.
  intros Hm Hf l s. unfold bind. rewrite (Hm l s), (log_blind_run s Hm).
  simpl. destruct (fst (m s)) as [a|e]; [apply Hf | reflexivity].
Qed.

Create HintDb blind.
#[export] Hint Resolve log_blind_ret log_blind_raise log_blind_subscript
  log_blind_raise_if : blind.

Ltac blind :=
  repeat match goal with
         | |- log_blind (bind _ _) => apply log_blind_bind; [|intro]
         | |- log_blind (gets _) => apply log_blind_gets; reflexivity
         end;
  auto with blind.

Lemma log_blind_validate key : log_blind (_validate key).
Proof. unfold _validate. blind. Qed.

Lemma log_blind_available key : log_blind (available key).
Proof.
  unfold available.
  apply log_blind_bind; [apply log_blind_validate | intros _].
  blind. destruct (maxRefCount a0 =? -1); blind.
Qed.

#[export] Hint Resolve log_blind_validate log_blind_available : blind.

Section LogBlindMatching.
Variable re_match : string -> string -> option bool.

Lemma log_blind_regexp_criterion matchArgs k field :
  log_blind (regexp_criterion re_match matchArgs k field).
Proof.
  unfold regexp_criterion. destruct (Dict.get matchArgs k) as [p|]; blind.
  destruct (re_match p field); blind.
Qed.

Lemma log_blind_availability_criterion matchArgs k negated i :
  log_blind (availability_criterion matchArgs k negated i).
Proof.
  unfold availability_criterion. destruct (Dict.get matchArgs k); blind.
Qed.

Lemma log_blind_and_then a b : log_blind a -> log_blind b -> log_blind (and_then a b).
Proof.
  intros Ha Hb. unfold and_then. apply log_blind_bind; auto.
  intros []; auto with blind.
Qed.

Lemma log_blind_matches matchArgs i : log_blind (matches re_match matchArgs i).
Proof.
  unfold matches.
  repeat apply log_blind_and_then;
    auto using log_blind_regexp_criterion, log_blind_availability_criterion.
Qed.

Lemma log_blind_matching matchArgs keys : log_blind (matching re_match matchArgs keys).
Proof.
  induction keys as [|i keys IH]; simpl; [blind|].
  apply log_blind_bind; [apply log_blind_matches|].
  intros []; auto. blind.
Qed.

Lemma log_blind_wolock_match matchArgs : log_blind (_wolock_match re_match matchArgs).
Proof.
  unfold _wolock_match.
  apply log_blind_bind; [apply log_blind_gets; reflexivity | intros infos].
  apply log_blind_bind; [apply log_blind_matching | intros serials]. blind.
Qed.

Lemma log_blind_matching_available serials : log_blind (matching_available serials).
Proof. induction serials as [|x serials IH]; simpl; blind. Qed.

End LogBlindMatching.

(** ** What a successful [acquire] did *)

Lemma available_true_inv key s :
  fst (available key s) = Ok true ->
  exists rc dc,
    Dict.get (_refcount s) key = Some rc
    /\ Dict.get (_g_device_id_class s) key = Some dc
    /\ (maxRefCount dc = -1 \/ rc < maxRefCount dc).
Proof.
  unfold available, _validate, Dict.mem. run_method.
  destruct (Dict.get (_refcount s) key) as [rc|] eqn:Hrc; simpl; [|discriminate].
  destruct (Dict.get (_g_device_id_class s) key) as [dc|]; simpl; [|discriminate].
  destruct (maxRefCount dc =? -1) eqn:Eu; simpl.
  - intros _. exists rc, dc. apply Z.eqb_eq in Eu. auto.
  - rewrite Hrc. simpl. intros [= Hlt]. exists rc, dc. apply Z.ltb_lt in Hlt. auto.
Qed.

Lemma matching_available_spec serials s avail :
  fst (matching_available serials s) = Ok avail ->
  forall key, In key avail <-> In key serials /\ fst (available key s) = Ok true.
Proof.
  revert avail. induction serials as [|x serials IH]; simpl; intros avail.
  - intros [= <-] key. simpl. tauto.
  - unfold bind at 1.
    pose proof (reads_only_available x s) as Hx.
    destruct (available x s) as [[a|e] s0] eqn:Ea; simpl in Hx; subst s0;
      [|discriminate].
    unfold bind at 1.
    pose proof (reads_only_matching_available serials s) as Hr.
    destruct (matching_available serials s) as [[l|e] s0] eqn:El; simpl in Hr;
      subst s0; [|discriminate].
    simpl. intros [= <-] key. specialize (IH l eq_refl key).
    destruct a; simpl; rewrite IH; split.
    + intros [<-|[Hin Hav]]; [rewrite Ea; auto | auto].
    + intros [[<-|Hin] Hav]; auto.
    + intros [Hin Hav]; auto.
    + intros [[<-|Hin] Hav]; [rewrite Ea in Hav; discriminate | auto].
Qed.

Section AcquireCases.
Variable re_match : string -> string -> option bool.

(** One call of [acquire] either leaves the registry as it is, the log
    apart, and returns no device, or it has found a matching device that was
    available and recorded one lease on it. *)
Lemma acquire_loop_cases fuel block acquirer matchArgs now rnd s :
  exists r s',
    acquire_loop re_match fuel block acquirer matchArgs now rnd s = (r, s')
    /\ ((s' = with_log (daemon_log s') s /\ forall key, r <> Ok (Some (Some key)))
        \/ exists key rc serials,
             r = Ok (Some (Some key))
             /\ fst (_wolock_match re_match matchArgs s) = Ok serials
             /\ In key serials
             /\ fst (available key s) = Ok true
             /\ Dict.get (_refcount s) key = Some rc
             /\ s' = with_log (daemon_log s' )
                       (with_acquirer (ledger_push (_acquirer s) acquirer key now)
                          (with_refcount (Dict.set (_refcount s) key (rc + 1)) s))).
Proof.
  revert s. induction fuel as [|fuel IH]; intros s; simpl.
  - eexists _, _. split; [reflexivity|]. left.
    split; [symmetry; apply with_log_same | discriminate].
  - unfold bind at 1.
    rewrite (log_blind_run s (log_blind_wolock_match re_match matchArgs)).
    destruct (fst (_wolock_match re_match matchArgs s)) as [serials|e] eqn:Em.
    2:{ eexists _, _. split; [reflexivity|]. left.
        split; [symmetry; apply with_log_same | discriminate]. }
    destruct serials as [|x serials].
    { eexists _, _. split; [reflexivity|]. left.
      split; [symmetry; apply with_log_same | discriminate]. }
    unfold bind at 1.
    rewrite (log_blind_run s (log_blind_matching_available (x :: serials))).
    destruct (fst (matching_available (x :: serials) s)) as [avail|e] eqn:Eav.
    2:{ eexists _, _. split; [reflexivity|]. left.
        split; [symmetry; apply with_log_same | discriminate]. }
    pose proof (matching_available_spec _ _ Eav) as Hspec.
    destruct avail as [|y avail].
    + destruct block; simpl.
      2:{ eexists _, _. split; [reflexivity|]. left.
          split; [symmetry; apply with_log_same | discriminate]. }
      unfold bind at 1, daemon_log_line at 1, modify at 1.
      set (sb := with_log (daemon_log s ++ [log_acquire_blocked]) s).
      destruct (IH sb) as [r [s' [Hrun Hcase]]].
      exists r, s'. split; [exact Hrun|].
      destruct Hcase as [[Hs' Hr]|[key [rc [serials' [Hr [Hm [Hin [Hav [Hrc Hs']]]]]]]]].
      * left. split; [|exact Hr]. rewrite Hs' at 1. reflexivity.
      * exfalso.
        unfold sb in Hm. rewrite (log_blind_wolock_match re_match matchArgs) in Hm.
        simpl in Hm. rewrite Em in Hm. injection Hm as <-.
        unfold sb in Hav. rewrite (log_blind_available key) in Hav. simpl in Hav.
        assert (Hin' : In key []) by (apply Hspec; auto).
        destruct Hin'.
    + set (key := nth (Nat.modulo rnd (length (y :: avail))) (y :: avail) "").
      assert (Hkey : In key (y :: avail)).
      { apply nth_In. apply Nat.mod_upper_bound. simpl. discriminate. }
      apply Hspec in Hkey. destruct Hkey as [Hin Hav].
      destruct (available_true_inv _ _ Hav) as [rc [dc [Hrc _]]].
      unfold bind at 1.
      rewrite (@wolock_acquire_run now key acquirer s rc Hrc).
      eexists _, _. split; [reflexivity|]. right.
      exists key, rc, (x :: serials). repeat split; auto.
Qed.

End AcquireCases.

(** X7: when [acquire] returns a device, that device is among those the criteria
    match, it was available, its lease count has gone up by one and no other
    count has changed, the acquirer has one lease more on it, and the two
    indexes are untouched. *)
Theorem acquire_success (re_match : string -> string -> option bool)
    (fuel : nat) (block : bool) (acquirer : option string)
    (matchArgs : dict string string) (now : timestamp) (rnd : nat)
    (s s' : State) (key : string) :
  acquire re_match fuel block acquirer matchArgs now rnd s
  = (Ok (Some (Some key)), s') ->
  exists rc serials,
    fst (match_ re_match matchArgs s) = Ok serials
    /\ In key serials
    /\ fst (available key s) = Ok true
    /\ Dict.get (_refcount s) key = Some rc
    /\ Dict.get (_refcount s') key = Some (rc + 1)
    /\ (forall key', key' <> key ->
          Dict.get (_refcount s') key' = Dict.get (_refcount s) key')
    /\ held_by (_acquirer s') (match acquirer with None => "" | Some a => a end) key
       = S (held_by (_acquirer s) (match acquirer with None => "" | Some a => a end) key)
    /\ _devinfo s' = _devinfo s
    /\ _infos s' = _infos s.
Proof.
  unfold acquire, match_. intros Hrun.
  pose proof (acquire_loop_held_by _ _ _ _ _ _ _ _ Hrun) as Hheld.
  destruct (acquire_loop_cases re_match fuel block
              (match acquirer with None => "" | Some a => a end) matchArgs now rnd s)
    as [r [s1 [Hrun' Hcase]]].
  rewrite Hrun in Hrun'. injection Hrun' as <- <-.
  destruct Hcase as [[_ Hr]|[key' [rc [serials [Hr [Hm [Hin [Hav [Hrc Hs']]]]]]]]].
  - exfalso. apply (Hr key). reflexivity.
  - injection Hr as <-. exists rc, serials.
    split; [exact Hm|]. split; [exact Hin|]. split; [exact Hav|].
    split; [exact Hrc|].
    split; [rewrite Hs'; simpl; apply get_set_same|].
    split; [intros k Hne; rewrite Hs'; simpl; apply get_set_other; congruence|].
    split; [exact Hheld|].
    split; rewrite Hs'; reflexivity.
Qed.

Lemma acquire_success_witness :
  exists rc serials,
    fst (match_ literal_re_match [("id", "X")] Fixture.leased_once) = Ok serials
    /\ In "X" serials
    /\ fst (available "X" Fixture.leased_once) = Ok true
    /\ Dict.get (_refcount Fixture.leased_once) "X" = Some rc
    /\ Dict.get (_refcount Fixture.leased_twice) "X" = Some (rc + 1)
    /\ (forall key', key' <> "X" ->
          Dict.get (_refcount Fixture.leased_twice) key'
          = Dict.get (_refcount Fixture.leased_once) key')
    /\ held_by (_acquirer Fixture.leased_twice) "a" "X"
       = S (held_by (_acquirer Fixture.leased_once) "a" "X")
    /\ _devinfo Fixture.leased_twice = _devinfo Fixture.leased_once
    /\ _infos Fixture.leased_twice = _infos Fixture.leased_once.
Proof.
  apply (@acquire_success literal_re_match 1 false (Some "a") [("id", "X")] 11 0
           Fixture.leased_once Fixture.leased_twice "X").
  reflexivity.
Defined.

(** ** Capacity *)

(** X8: no call of [acquire], [release] or [release_all] takes a lease count
    above the capacity of the plugin that owns the device. *)
Theorem capacity_never_exceeded :
  (forall re_match fuel block acquirer matchArgs now rnd,
      preserves capacity_ok (acquire re_match fuel block acquirer matchArgs now rnd))
  /\ (forall now key acquirer, preserves capacity_ok (release now key acquirer))
  /\ (forall now acquirer, preserves capacity_ok (release_all now acquirer)).
Proof.
  assert (Hrel : forall now key a, preserves capacity_ok (_wolock_release now key a)).
  { intros now key acquirer s Hs.
    destruct (wolock_release_cases now key acquirer s)
      as [->|[a [rc [held [t [stamps [Hrc [_ [_ ->]]]]]]]]]; [exact Hs|].
    intros key' rc' dc. simpl.
    destruct (String.eqb_spec key key') as [<-|Hne].
    - rewrite get_set_same. intros [= <-] Hdc.
      destruct (Hs _ _ _ Hrc Hdc); [auto | right; lia].
    - rewrite get_set_other by assumption. apply Hs. }
  split; [|split].
  - intros re_match fuel block acquirer matchArgs now rnd s Hs. unfold acquire.
    destruct (acquire_loop_cases re_match fuel block
                (match acquirer with None => "" | Some a => a end) matchArgs now rnd s)
      as [r [s' [Hrun Hcase]]].
    rewrite Hrun. simpl.
    destruct Hcase as [[Hs' _]|[key [rc [serials [_ [_ [_ [Hav [Hrc Hs']]]]]]]]];
      rewrite Hs'; intros key' rc' dc; simpl.
    + apply Hs.
    + destruct (String.eqb_spec key key') as [<-|Hne].
      * rewrite get_set_same. intros [= <-] Hdc.
        destruct (available_true_inv _ _ Hav) as [rc0 [dc0 [Hrc0 [Hdc0 Hcap]]]].
        rewrite Hrc in Hrc0. injection Hrc0 as <-.
        rewrite Hdc in Hdc0. injection Hdc0 as <-.
        destruct Hcap; [auto | right; lia].
      * rewrite get_set_other by assumption. apply Hs.
  - intros now key acquirer. unfold release. apply preserves_bind.
    + apply preserves_reads_only, reads_only_validate.
    + intros _. apply Hrel.
  - intros now acquirer. unfold release_all.
    apply preserves_bind; [apply preserves_reads_only, reads_only_gets | intros acq].
    apply preserves_bind; [apply preserves_reads_only, reads_only_raise_if | intros _].
    apply preserves_bind; [apply preserves_reads_only, reads_only_gets | intros acq'].
    apply preserves_bind; [apply preserves_reads_only, reads_only_subscript | intros held].
    apply preserves_for_each. intros key. apply Hrel.
Qed.

Lemma capacity_ok_leased_once : capacity_ok Fixture.leased_once.
Proof.
  intros key rc dc.
  change (_refcount Fixture.leased_once) with [("X", 1)].
  change (_g_device_id_class Fixture.leased_once) with [("X", Fixture.phones)].
  simpl. destruct (String.eqb key "X"); [|discriminate].
  intros [= <-] [= <-]. right. simpl. lia.
Qed.

Lemma capacity_never_exceeded_witness :
  capacity_ok
    (snd (acquire literal_re_match 1 false (Some "a") [("id", "X")] 11 0
            Fixture.leased_once)).
Proof.
  apply (proj1 capacity_never_exceeded literal_re_match 1%nat false (Some "a")
           [("id", "X")] 11 0%nat Fixture.leased_once capacity_ok_leased_once).
Defined.

(** ** Acquire, then release *)

(** The entry [ledger_push] writes is the one [ledger_pop] undoes, on a
    ledger without empty entries. *)
Lemma ledger_push_get acq a key now :
  exists held' t stamps',
    Dict.get (ledger_push acq a key now) a = Some held'
    /\ Dict.get held' key = Some (t :: stamps')
    /\ last (t :: stamps') 0 = now
    /\ (ledger_normal acq ->
        ledger_pop (ledger_push acq a key now) a key held' (t :: stamps') = acq).
Proof.
  unfold ledger_push.
  destruct (Dict.get acq a) as [held|] eqn:Ea.
  - destruct (Dict.get held key) as [stamps|] eqn:Ek.
    + destruct stamps as [|x r].
      * exists (Dict.set held key [now]), now, [].
        rewrite !get_set_same. repeat split.
        intros Hn. destruct (Hn _ _ Ea) as [_ Hst].
        exfalso. now apply (Hst key []).
      * exists (Dict.set held key ((x :: r) ++ [now])), x, (r ++ [now]).
        rewrite !get_set_same. split; [reflexivity|]. split; [reflexivity|].
        split; [apply (last_last (x :: r) now 0)|].
        intros _. unfold ledger_pop.
        change (x :: r ++ [now]) with ((x :: r) ++ [now]).
        rewrite removelast_last, !set_set.
        rewrite (set_get_same held key Ek). apply (set_get_same acq a Ea).
    + exists (Dict.set held key [now]), now, [].
      rewrite !get_set_same. repeat split.
      intros Hn. destruct (Hn _ _ Ea) as [Hne _].
      unfold ledger_pop. simpl removelast.
      rewrite (del_set_new held key [now] Ek).
      destruct held as [|e h]; [contradiction|].
      rewrite set_set. apply (set_get_same acq a Ea).
  - exists [(key, [now])], now, [].
    rewrite get_set_same. simpl. rewrite String.eqb_refl. repeat split.
    intros _. unfold ledger_pop. simpl. rewrite String.eqb_refl.
    apply (del_set_new acq a _ Ea).
Qed.

(** X9: a device that [acquire] has just returned can be released by the same
    acquirer, and the release gives back the registry of before the
    [acquire]: lease counts, ledger and indexes are the same, only the log
    has grown.  The ledger is supposed to have no empty entry and the lease
    count of the device not to be negative. *)
Theorem acquire_then_release (re_match : string -> string -> option bool)
    (fuel : nat) (block : bool) (acquirer : option string)
    (matchArgs : dict string string) (now now' : timestamp) (rnd : nat)
    (s s1 : State) (key : string) :
  ledger_normal (_acquirer s) ->
  (forall rc, Dict.get (_refcount s) key = Some rc -> 0 <= rc) ->
  acquire re_match fuel block acquirer matchArgs now rnd s
  = (Ok (Some (Some key)), s1) ->
  release now' key (Some (match acquirer with None => "" | Some a => a end)) s1
  = (Ok tt,
     with_log
       (daemon_log s1
        ++ [log_released (match acquirer with None => "" | Some a => a end)
              key (now' - now)])
       s).
Proof.
  intros Hn Hnonneg. unfold acquire.
  set (a := match acquirer with None => "" | Some a => a end).
  intros Hrun.
  destruct (acquire_loop_cases re_match fuel block a matchArgs now rnd s)
    as [r [s' [Hrun' Hcase]]].
  rewrite Hrun in Hrun'. injection Hrun' as <- <-.
  destruct Hcase as [[_ Hr]|[key' [rc [serials [Hr [_ [_ [_ [Hrc Hs1]]]]]]]]].
  { exfalso. apply (Hr key). reflexivity. }
  injection Hr as <-.
  remember (daemon_log s1) as L eqn:HL. clear HL. subst s1.
  destruct (ledger_push_get (_acquirer s) a key now)
    as [held' [t [st [Hg [Hk [Hlast Hpop]]]]]].
  specialize (Hpop Hn). specialize (Hnonneg rc Hrc).
  set (s1 := with_log L
               (with_acquirer (ledger_push (_acquirer s) a key now)
                  (with_refcount (Dict.set (_refcount s) key (rc + 1)) s))).
  assert (Hrc1 : Dict.get (_refcount s1) key = Some (rc + 1))
    by (simpl; apply get_set_same).
  assert (Hnz : rc + 1 <> 0) by lia.
  unfold release.
  rewrite (@bind_ok _ _ _ _ _ _ _ (validate_registered _ _ Hrc1)).
  rewrite (@wolock_release_run now' key (Some a) a s1 (rc + 1) held' t st
             Hrc1 Hnz (or_introl eq_refl) Hg Hk).
  rewrite Hlast. f_equal.
  unfold s1. destruct s as [wl bl dcs cls di rcs acq infos lg]. simpl in *.
  unfold with_log, with_acquirer, with_refcount. simpl.
  rewrite Hpop, set_set. replace (rc + 1 - 1) with rc by lia.
  rewrite (set_get_same rcs key Hrc). reflexivity.
Qed.

Lemma acquire_then_release_witness :
  release 30 "X" (Some "a") Fixture.leased_twice
  = (Ok tt,
     with_log (daemon_log Fixture.leased_twice ++ [log_released "a" "X" (30 - 11)])
       Fixture.leased_once).
Proof.
  apply (@acquire_then_release literal_re_match 1 false (Some "a") [("id", "X")]
           11 30 0 Fixture.leased_once Fixture.leased_twice "X").
  - change (_acquirer Fixture.leased_once) with [("a", [("X", [10])])].
    intros a held. simpl. destruct (String.eqb a "a"); [|discriminate].
    intros [= <-]. split; [discriminate|].
    intros key stamps. simpl. destruct (String.eqb key "X"); [|discriminate].
    intros [= <-]. discriminate.
  - intros rc. change (_refcount Fixture.leased_once) with [("X", 1)]. simpl.
    intros [= <-]. lia.
  - reflexivity.
Defined.

(** ** A blocking [acquire] *)

Section Blocking.
Variable re_match : string -> string -> option bool.

Lemma acquire_loop_blocked fuel acquirer matchArgs now rnd serials :
  serials <> [] ->
  forall s,
    fst (_wolock_match re_match matchArgs s) = Ok serials ->
    (forall key, In key serials -> fst (available key s) = Ok false) ->
    acquire_loop re_match fuel true acquirer matchArgs now rnd s
    = (Ok None, with_log (daemon_log s ++ repeat log_acquire_blocked fuel) s).
Proof.
  intros Hne. induction fuel as [|fuel IH]; intros s Hm Hall; simpl.
  - unfold ret. rewrite app_nil_r, with_log_same. reflexivity.
  - unfold bind at 1.
    rewrite (log_blind_run s (log_blind_wolock_match re_match matchArgs)), Hm.
    destruct serials as [|x serials]; [contradiction|].
    unfold bind at 1.
    rewrite (@matching_available_none (x :: serials) s Hall).
    unfold bind at 1, daemon_log_line at 1, modify at 1.
    rewrite IH.
    + simpl. rewrite <- app_assoc. reflexivity.
    + rewrite (log_blind_wolock_match re_match matchArgs). exact Hm.
    + intros key Hin. rewrite (log_blind_available key). simpl. now apply Hall.
Qed.

Lemma acquire_loop_none fuel acquirer matchArgs now rnd :
  forall s s',
    acquire_loop re_match fuel true acquirer matchArgs now rnd s
    = (Ok (Some None), s') ->
    fst (_wolock_match re_match matchArgs s) = Ok [].
Proof.
  induction fuel as [|fuel IH]; intros s s'; simpl; [discriminate|].
  unfold bind at 1.
  rewrite (log_blind_run s (log_blind_wolock_match re_match matchArgs)).
  destruct (fst (_wolock_match re_match matchArgs s)) as [serials|e] eqn:Em;
    [|discriminate].
  destruct serials as [|x serials]; [reflexivity|].
  unfold bind at 1.
  rewrite (log_blind_run s (log_blind_matching_available (x :: serials))).
  destruct (fst (matching_available (x :: serials) s)) as [avail|e]; [|discriminate].
  destruct avail as [|y avail].
  - unfold bind at 1, daemon_log_line at 1, modify at 1. intros Hrun.
    apply IH in Hrun.
    rewrite (log_blind_wolock_match re_match matchArgs) in Hrun. simpl in Hrun.
    congruence.
  - unfold bind at 1.
    destruct (_wolock_acquire now _ acquirer s) as [[[]|e] s0]; [|discriminate].
    run_method. discriminate.
Qed.

(** X10: as long as nobody else changes the registry, a blocking [acquire] whose
    criteria match devices none of which is available is still waiting
    after any number of rounds, each of which has only written a line in the
    log; and a blocking [acquire] returns [None] only when the criteria
    match no device at all. *)
Theorem blocking_acquire_waits (acquirer : option string)
    (matchArgs : dict string string) (now : timestamp) (rnd : nat) (s : State) :
  (forall serials,
      fst (match_ re_match matchArgs s) = Ok serials ->
      serials <> [] ->
      (forall key, In key serials -> fst (available key s) = Ok false) ->
      forall fuel,
        acquire re_match fuel true acquirer matchArgs now rnd s
        = (Ok None, with_log (daemon_log s ++ repeat log_acquire_blocked fuel) s))
  /\ (forall fuel s',
        acquire re_match fuel true acquirer matchArgs now rnd s
        = (Ok (Some None), s') ->
        fst (match_ re_match matchArgs s) = Ok []).
Proof.
  split.
  - intros serials Hm Hne Hall fuel. unfold acquire.
    now apply acquire_loop_blocked with (serials := serials).
  - intros fuel s'. unfold acquire, match_. apply acquire_loop_none.
Qed.

End Blocking.

Lemma blocking_acquire_waits_witness :
  acquire literal_re_match 3 true (Some "b") [("id", "X")] 12 0 Fixture.leased_twice
  = (Ok None,
     with_log (daemon_log Fixture.leased_twice ++ repeat log_acquire_blocked 3)
       Fixture.leased_twice)
  /\ fst (match_ literal_re_match [("id", "Y")] Fixture.leased_twice) = Ok [].
Proof.
  split.
  - apply (proj1 (blocking_acquire_waits literal_re_match (Some "b") [("id", "X")]
                    12 0 Fixture.leased_twice) ["X"]).
    + reflexivity.
    + discriminate.
    + intros key [<-|[]]. reflexivity.
  - apply (proj2 (blocking_acquire_waits literal_re_match (Some "b") [("id", "Y")]
                    12 0 Fixture.leased_twice) 2%nat Fixture.leased_twice).
    reflexivity.
Defined.

(** ** What [match] returns *)

Section MatchResult.
Variable re_match : string -> string -> option bool.

Lemma matching_spec matchArgs keys s serials :
  fst (matching re_match matchArgs keys s) = Ok serials ->
  forall key,
    In key serials
    <-> exists i, In i keys
                  /\ Dict.get (_infos s) i = Some key
                  /\ fst (matches re_match matchArgs i s) = Ok true.
Proof.
  revert serials. induction keys as [|i keys IH]; simpl; intros serials.
  - intros [= <-] key. simpl. split; [tauto | intros [? [[] _]]].
  - unfold bind at 1.
    pose proof (reads_only_matches re_match matchArgs i s) as Hi.
    destruct (matches re_match matchArgs i s) as [[ok|e] s0] eqn:Em; simpl in Hi;
      subst s0; [|discriminate].
    destruct ok.
    + unfold bind at 1, gets at 1. unfold bind at 1.
      destruct (Dict.get (_infos s) i) as [serial|] eqn:Ei; simpl; [|discriminate].
      unfold bind at 1.
      pose proof (reads_only_matching re_match matchArgs keys s) as Hr.
      destruct (matching re_match matchArgs keys s) as [[rest|e] s0] eqn:Er;
        simpl in Hr; subst s0; [|discriminate].
      simpl. intros [= <-] key. specialize (IH rest eq_refl key). simpl.
      rewrite IH. split.
      * intros [<-|[j [Hin Hj]]].
        -- exists i. rewrite Em. auto.
        -- exists j. tauto.
      * intros [j [[<-|Hin] [Hg Hm]]].
        -- left. congruence.
        -- right. exists j. auto.
    + intros Hrun key. rewrite (IH serials Hrun key). split.
      * intros [j [Hin Hj]]. exists j. tauto.
      * intros [j [[<-|Hin] [Hg Hm]]].
        -- rewrite Em in Hm. discriminate.
        -- exists j. auto.
Qed.

Lemma and_then_true a b s :
  reads_only a ->
  fst (and_then a b s) = Ok true -> fst (a s) = Ok true /\ fst (b s) = Ok true.
Proof.
  intros Ha. unfold and_then, bind. specialize (Ha s).
  destruct (a s) as [[[]|e] s0]; simpl in *; subst; auto; discriminate.
Qed.

Lemma regexp_criterion_true matchArgs k field s :
  fst (regexp_criterion re_match matchArgs k field s) = Ok true ->
  forall pattern, Dict.get matchArgs k = Some pattern ->
                  re_match pattern field = Some true.
Proof.
  unfold regexp_criterion. intros Hr pattern Hp. rewrite Hp in Hr.
  destruct (re_match pattern field) as [[]|]; simpl in Hr; congruence.
Qed.

Lemma availability_criterion_true matchArgs k negated i s :
  fst (availability_criterion matchArgs k negated i s) = Ok true ->
  forall wanted,
    Dict.get matchArgs k = Some wanted ->
    exists key a,
      Dict.get (_infos s) i = Some key
      /\ fst (available key s) = Ok a
      /\ lower wanted = lower (str_bool (xorb negated a)).
Proof.
  unfold availability_criterion. intros Hr wanted Hw. rewrite Hw in Hr.
  unfold bind, gets, subscript in Hr.
  destruct (Dict.get (_infos s) i) as [key|]; simpl in Hr; [|discriminate].
  pose proof (reads_only_available key s) as Hs.
  destruct (available key s) as [[a|e] s0] eqn:Ea; simpl in *; [|discriminate].
  exists key, a. split; [reflexivity|]. split; [now rewrite Ea|].
  injection Hr as Hr. now apply String.eqb_eq.
Qed.

(** X11: [match] returns exactly the serial numbers the reverse index gives for
    the descriptions that satisfy the condition of the comprehension; and a
    description satisfies it only if every regular expression among the
    criteria matches its field and every [free] or [busy] among them spells,
    case apart, the availability of the device or its negation. *)
Theorem match_returns_matching_devices (matchArgs : dict string string)
    (s : State) (serials : list string) :
  fst (match_ re_match matchArgs s) = Ok serials ->
  forall key,
    In key serials
    <-> exists i,
          Dict.get (_infos s) i = Some key
          /\ fst (matches re_match matchArgs i s) = Ok true
          /\ (forall p, Dict.get matchArgs "id" = Some p -> re_match p (id i) = Some true)
          /\ (forall p, Dict.get matchArgs "type" = Some p ->
                        re_match p (type i) = Some true)
          /\ (forall p, Dict.get matchArgs "sw" = Some p -> re_match p (sw i) = Some true)
          /\ (forall p, Dict.get matchArgs "hw" = Some p -> re_match p (hw i) = Some true)
          /\ (forall p, Dict.get matchArgs "display" = Some p ->
                        re_match p (display i) = Some true)
          /\ (forall w, Dict.get matchArgs "free" = Some w ->
                        exists a, fst (available key s) = Ok a
                                  /\ lower w = lower (str_bool a))
          /\ (forall w, Dict.get matchArgs "busy" = Some w ->
                        exists a, fst (available key s) = Ok a
                                  /\ lower w = lower (str_bool (negb a))).
Proof.
  unfold match_, _wolock_match. unfold bind at 1, gets at 1. unfold bind at 1.
  pose proof (reads_only_matching re_match matchArgs (Dict.keys (_infos s)) s) as Hr.
  destruct (matching re_match matchArgs (Dict.keys (_infos s)) s)
    as [[l|e] s0] eqn:El; simpl in Hr; subst s0; [|discriminate].
  simpl. intros [= <-] key. rewrite In_set_of.
  assert (Hl : fst (matching re_match matchArgs (Dict.keys (_infos s)) s) = Ok l)
    by now rewrite El.
  rewrite (matching_spec _ _ _ Hl key). split.
  - intros [i [_ [Hg Hm]]]. exists i. split; [exact Hg|]. split; [exact Hm|].
    unfold matches in Hm.
    repeat match type of Hm with
           | fst (and_then _ _ _) = Ok true =>
               apply and_then_true in Hm;
               [ let H1 := fresh "Hc" in destruct Hm as [H1 Hm]
               | first [ apply reads_only_regexp_criterion
                       | apply reads_only_availability_criterion ] ]
           end.
    repeat split; try (now apply regexp_criterion_true with (s := s)).
    + intros w Hw.
      destruct (@availability_criterion_true matchArgs "free" false i s Hc4 w Hw)
        as [key' [a [Hk [Ha Hlow]]]].
      assert (key' = key) by congruence. subst key'. exists a. auto.
    + intros w Hw.
      destruct (@availability_criterion_true matchArgs "busy" true i s Hm w Hw)
        as [key' [a [Hk [Ha Hlow]]]].
      assert (key' = key) by congruence. subst key'. exists a. auto.
  - intros [i [Hg [Hm _]]]. exists i. split; [|auto].
    apply get_in_keys. congruence.
Qed.

End MatchResult.

Lemma match_returns_matching_devices_witness :
  In "X" ["X"]
  <-> exists i,
        Dict.get (_infos Fixture.leased_twice) i = Some "X"
        /\ fst (matches literal_re_match [("type", "pho"); ("busy", "TRUE")] i
                  Fixture.leased_twice) = Ok true
        /\ (forall p, Dict.get [("type", "pho"); ("busy", "TRUE")] "id" = Some p ->
                      literal_re_match p (id i) = Some true)
        /\ (forall p, Dict.get [("type", "pho"); ("busy", "TRUE")] "type" = Some p ->
                      literal_re_match p (type i) = Some true)
        /\ (forall p, Dict.get [("type", "pho"); ("busy", "TRUE")] "sw" = Some p ->
                      literal_re_match p (sw i) = Some true)
        /\ (forall p, Dict.get [("type", "pho"); ("busy", "TRUE")] "hw" = Some p ->
                      literal_re_match p (hw i) = Some true)
        /\ (forall p, Dict.get [("type", "pho"); ("busy", "TRUE")] "display" = Some p ->
                      literal_re_match p (display i) = Some true)
        /\ (forall w, Dict.get [("type", "pho"); ("busy", "TRUE")] "free" = Some w ->
                      exists a, fst (available "X" Fixture.leased_twice) = Ok a
                                /\ lower w = lower (str_bool a))
        /\ (forall w, Dict.get [("type", "pho"); ("busy", "TRUE")] "busy" = Some w ->
                      exists a, fst (available "X" Fixture.leased_twice) = Ok a
                                /\ lower w = lower (str_bool (negb a))).
Proof.
  apply (@match_returns_matching_devices literal_re_match
           [("type", "pho"); ("busy", "TRUE")] Fixture.leased_twice ["X"]).
  reflexivity.
Defined.

(** ** The lists of [rescan] *)

(** What remains of the identifiers the plugins report: those on the
    whitelist, if there is one, that are not on the blacklist.  An identifier
    on both lists is dropped. *)
Theorem filter_lists_spec (wl bl serialNumbers : list string) (x : string) :
  In x (filter_lists wl bl serialNumbers)
  <-> In x serialNumbers /\ (wl = [] \/ In x wl) /\ ~ In x bl.
Proof.
  unfold filter_lists.
  assert (Hw : forall l,
             In x (match wl with
                   | [] => l
                   | _ => filter (fun y => mem_string y wl) l
                   end)
             <-> In x l /\ (wl = [] \/ In x wl)).
  { intros l. destruct wl as [|w wl'].
    - split; [auto | tauto].
    - rewrite filter_In, mem_string_In. split.
      + intros [? ?]; auto.
      + intros [? [?|?]]; [discriminate | auto]. }
  destruct bl as [|b bl'].
  - rewrite Hw. simpl. tauto.
  - rewrite filter_In, Hw, negb_true_iff.
    rewrite <- (mem_string_In x (b :: bl')).
    destruct (mem_string x (b :: bl')); split; intros; intuition congruence.
Qed.

(** ** Building the registry *)

Lemma same_devices_refl s : same_devices s s.
Proof. repeat split. Qed.

Lemma same_devices_trans s1 s2 s3 :
  same_devices s1 s2 -> same_devices s2 s3 -> same_devices s1 s3.
Proof.
  unfold same_devices. intros [? [? [? [? [? [? ?]]]]]] [? [? [? [? [? [? ?]]]]]].
  repeat split; congruence.
Qed.

(** An exception of a plugin's [rescan] that does not derive from
    [Exception] is not caught: it leaves [rescan]. *)
Lemma rescan_device_class_base_exception serialNumbers dc e s :
  dc_rescan dc = Raise e ->
  is_Exception e = false ->
  rescan_device_class serialNumbers dc s = (Raise e, s).
Proof.
  intros E He. unfold rescan_device_class. run_method. rewrite E, He. reflexivity.
Qed.

(** The inner loop of [rescan] over the identifiers one plugin reports. *)
Lemma rescan_device_ids dcs dc deviceIds :
  In dc dcs ->
  forall serialNumbers s,
    all_owned_by dcs serialNumbers s ->
    exists serialNumbers' s',
      for_fold deviceIds serialNumbers
        (fun serialNumbers deviceId =>
           (if mem_string deviceId serialNumbers then
              cls <- gets _g_device_id_class ;;
              other <- subscript (Dict.get cls deviceId) ;;
              if negb (Nat.eqb (obj_id other) (obj_id dc)) then
                daemon_log_line
                  (log_rescan_collision deviceId (plugin_name dc) (plugin_name other))
              else ret tt
            else ret tt) ;;;
           modify (fun s =>
             with_g_device_id_class (Dict.set (_g_device_id_class s) deviceId dc) s) ;;;
           ret (set_add deviceId serialNumbers)) s
      = (Ok serialNumbers', s')
      /\ same_devices s s'
      /\ all_owned_by dcs serialNumbers' s'.
Proof.
  intros Hdc.
  induction deviceIds as [|x deviceIds IH]; intros sn s Hown; simpl.
  - exists sn, s. split; [reflexivity|]. split; [apply same_devices_refl | exact Hown].
  - assert (Hstep : forall s0,
               same_devices s s0 ->
               _g_device_id_class s0 = _g_device_id_class s ->
               exists sn' s',
                 for_fold deviceIds (set_add x sn)
                   (fun serialNumbers deviceId =>
                      (if mem_string deviceId serialNumbers then
                         cls <- gets _g_device_id_class ;;
                         other <- subscript (Dict.get cls deviceId) ;;
                         if negb (Nat.eqb (obj_id other) (obj_id dc)) then
                           daemon_log_line
                             (log_rescan_collision deviceId (plugin_name dc)
                                (plugin_name other))
                         else ret tt
                       else ret tt) ;;;
                      modify (fun s =>
                        with_g_device_id_class
                          (Dict.set (_g_device_id_class s) deviceId dc) s) ;;;
                      ret (set_add deviceId serialNumbers))
                   (with_g_device_id_class (Dict.set (_g_device_id_class s0) x dc) s0)
                 = (Ok sn', s')
                 /\ same_devices s s' /\ all_owned_by dcs sn' s').
    { intros s0 Hsame Hcls.
      destruct (IH (set_add x sn)
                  (with_g_device_id_class (Dict.set (_g_device_id_class s0) x dc) s0))
        as [sn' [s' [Hrun [Hs Ho]]]].
      - intros y Hy. simpl. apply In_set_add in Hy. rewrite Hcls.
        destruct (String.eqb_spec x y) as [<-|Hne].
        + exists dc. rewrite get_set_same. auto.
        + rewrite get_set_other by assumption.
          destruct Hy as [->|Hy]; [contradiction | now apply Hown].
      - exists sn', s'. split; [exact Hrun|]. split; [|exact Ho].
        apply same_devices_trans with (s2 := s0); [exact Hsame|].
        apply same_devices_trans
          with (s2 := with_g_device_id_class (Dict.set (_g_device_id_class s0) x dc) s0);
          [repeat split | exact Hs]. }
    unfold bind at 1. unfold bind at 1.
    destruct (mem_string x sn) eqn:Hmem.
    + apply mem_string_In in Hmem. destruct (Hown x Hmem) as [other [Hother _]].
      unfold bind at 1, gets at 1. unfold bind at 1, subscript at 1.
      rewrite Hother. unfold ret at 1.
      destruct (negb (Nat.eqb (obj_id other) (obj_id dc))).
      * unfold daemon_log_line at 1, modify at 1. unfold bind at 1, modify at 1.
        unfold bind at 1, ret at 1. apply Hstep; [repeat split | reflexivity].
      * unfold ret at 1. unfold bind at 1, modify at 1.
        unfold bind at 1, ret at 1. apply Hstep; [repeat split | reflexivity].
    + unfold ret at 1. unfold bind at 1, modify at 1.
      unfold bind at 1, ret at 1. apply Hstep; [repeat split | reflexivity].
Qed.

(** The turn of one plugin whose [rescan] returns or raises an
    [Exception]. *)
Lemma rescan_device_class_returns dcs dc serialNumbers s :
  In dc dcs ->
  raises_only_Exception (dc_rescan dc) ->
  all_owned_by dcs serialNumbers s ->
  exists serialNumbers' s',
    rescan_device_class serialNumbers dc s = (Ok serialNumbers', s')
    /\ same_devices s s'
    /\ all_owned_by dcs serialNumbers' s'.
Proof.
  intros Hdc Hexc Hown.
  destruct (dc_rescan dc) as [ids|e] eqn:E.
  - unfold rescan_device_class. unfold bind at 1, try_except at 1, lift at 1.
    rewrite E. cbv beta iota.
    apply (@rescan_device_ids dcs dc ids Hdc serialNumbers s Hown).
  - rewrite (@rescan_device_class_fault serialNumbers dc e s E (Hexc e eq_refl)).
    eexists _, _. split; [reflexivity|]. split; [repeat split | exact Hown].
Qed.

(** The loop of [rescan] over plugins whose [rescan] returns or raises an
    [Exception] does not raise: such a fault counts for no device. *)
Lemma rescan_device_classes all_dcs dcs :
  (forall dc, In dc dcs -> In dc all_dcs /\ raises_only_Exception (dc_rescan dc)) ->
  forall serialNumbers s,
    all_owned_by all_dcs serialNumbers s ->
    exists serialNumbers' s',
      for_fold dcs serialNumbers rescan_device_class s = (Ok serialNumbers', s')
      /\ same_devices s s'
      /\ all_owned_by all_dcs serialNumbers' s'.
Proof.
  induction dcs as [|dc dcs IH]; intros Hdcs sn s Hown; simpl.
  - exists sn, s. split; [reflexivity|]. split; [apply same_devices_refl | exact Hown].
  - destruct (Hdcs dc (or_introl eq_refl)) as [Hin Hexc].
    destruct (@rescan_device_class_returns all_dcs dc sn s Hin Hexc Hown)
      as [sn1 [s1 [Hrun1 [Hs1 Ho1]]]].
    rewrite (@bind_ok _ _ _ _ _ _ _ Hrun1).
    destruct (IH (fun d Hd => Hdcs d (or_intror Hd)) sn1 s1 Ho1)
      as [sn2 [s2 [Hrun [Hs2 Ho2]]]].
    exists sn2, s2. split; [exact Hrun|]. split; [|exact Ho2].
    eauto using same_devices_trans.
Qed.

Lemma bind_gets {A B} (f : State -> A) (k : A -> M B) s :
  bind (gets f) k s = k (f s) s.
Proof. reflexivity. Qed.

(** A step of the loop that finds new devices, for an identifier whose
    plugin returns from [adopt] or raises an [Exception]: the step returns,
    and either changes nothing in the registry or registers the identifier
    with a lease count of zero. *)
Lemma rescan_find_new_step x s :
  (forall dc, Dict.get (_g_device_id_class s) x = Some dc ->
              raises_only_Exception (adopt dc x)) ->
  exists s',
    rescan_find_new x s = (Ok tt, s')
    /\ _g_device_id_class s' = _g_device_id_class s
    /\ whitelist s' = whitelist s /\ blacklist s' = blacklist s
    /\ _acquirer s' = _acquirer s
    /\ ((_devinfo s' = _devinfo s /\ _refcount s' = _refcount s)
        \/ exists v, _devinfo s' = Dict.set (_devinfo s) x v
                     /\ _refcount s' = Dict.set (_refcount s) x 0
                     /\ Dict.get (_devinfo s) x = None).
Proof.
  intros Hadopt. unfold rescan_find_new, _wolock_add. run_method.
  destruct (Dict.mem (_devinfo s) x) eqn:Hmem; simpl.
  { eexists. split; [reflexivity|]. simpl. repeat split; auto. }
  assert (Hnone : Dict.get (_devinfo s) x = None).
  { unfold Dict.mem in Hmem. destruct (Dict.get (_devinfo s) x); congruence. }
  destruct (Dict.get (_g_device_id_class s) x) as [dc|]; simpl.
  2:{ eexists. split; [reflexivity|]. simpl. repeat split; auto. }
  specialize (Hadopt dc eq_refl).
  destruct (adopt dc x) as [[d i]|e]; simpl.
  - eexists. split; [reflexivity|]. simpl. repeat split; auto.
    right. exists (d, i). auto.
  - rewrite (Hadopt e eq_refl).
    eexists. split; [reflexivity|]. simpl. repeat split; auto.
Qed.

Lemma rescan_find_all allowed serialNumbers :
  (forall x, In x serialNumbers -> In x allowed) ->
  forall s,
    (forall x dc, In x serialNumbers ->
       Dict.get (_g_device_id_class s) x = Some dc ->
       raises_only_Exception (adopt dc x)) ->
    (forall key, In key (Dict.keys (_devinfo s)) ->
                 In key allowed /\ Dict.get (_refcount s) key = Some 0) ->
    exists s',
      for_each serialNumbers rescan_find_new s = (Ok tt, s')
      /\ (forall key, In key (Dict.keys (_devinfo s')) ->
                      In key allowed /\ Dict.get (_refcount s') key = Some 0)
      /\ _g_device_id_class s' = _g_device_id_class s
      /\ whitelist s' = whitelist s /\ blacklist s' = blacklist s
      /\ _acquirer s' = _acquirer s.
Proof.
  induction serialNumbers as [|x l IH]; intros Hsub s Hadopt Hinv; simpl.
  - exists s. repeat split; auto; now apply Hinv.
  - destruct (@rescan_find_new_step x s (fun dc => Hadopt x dc (or_introl eq_refl)))
      as [s1 [Hrun [Hcls [Hwl [Hbl [Hacq Hreg]]]]]].
    rewrite (@bind_ok _ _ _ _ _ _ _ Hrun).
    destruct (IH (fun y Hy => Hsub y (or_intror Hy)) s1)
      as [s' [Hrun' [Hinv' [Hcls' [Hwl' [Hbl' Hacq']]]]]].
    + intros y dc Hy. rewrite Hcls. apply Hadopt. now right.
    + intros key Hin. destruct Hreg as [[Hd Hr]|[v [Hd [Hr _]]]]; rewrite Hr.
      * rewrite Hd in Hin. now apply Hinv.
      * rewrite Hd in Hin. apply in_keys_set in Hin.
        destruct (String.eqb_spec x key) as [<-|Hne].
        -- rewrite get_set_same. split; [apply Hsub; left|]; reflexivity.
        -- rewrite get_set_other by assumption.
           destruct Hin as [->|Hin]; [contradiction | now apply Hinv].
    + exists s'. split; [exact Hrun'|]. split; [exact Hinv'|].
      repeat split; congruence.
Qed.

Lemma for_each_skip {A} (l : list A) (body : A -> M unit) s :
  (forall x, In x l -> body x s = (Ok tt, s)) ->
  for_each l body s = (Ok tt, s).
Proof.
  induction l as [|x l IH]; intros Hb; simpl; [reflexivity|].
  rewrite (@bind_ok _ _ _ _ _ _ _ (Hb x (or_introl eq_refl))).
  apply IH. intros y Hy. apply Hb. now right.
Qed.

(** X12: when every plugin's [rescan] and [adopt] either return or raise an
    exception that derives from [Exception], [Devices()] does not raise.  In
    the registry it builds nobody has a lease, and every registered device
    has a lease count of zero and an owning plugin, is not on the blacklist,
    and is on the whitelist if there is one. *)
Theorem init_builds_registry (now : timestamp) (s : State) :
  (forall dc, In dc (_g_device_classes s) -> well_behaved dc) ->
  exists s',
    init now s = (Ok tt, s')
    /\ _acquirer s' = []
    /\ whitelist s' = whitelist s
    /\ blacklist s' = blacklist s
    /\ forall key,
         In key (Dict.keys (_devinfo s')) ->
         Dict.get (_refcount s') key = Some 0
         /\ Dict.get (_g_device_id_class s') key <> None
         /\ ~ In key (blacklist s)
         /\ (whitelist s = [] \/ In key (whitelist s)).
Proof.
  intros Hwb. unfold init, reset. unfold bind at 1, modify at 1.
  set (s0 := with_infos [] (with_acquirer [] (with_refcount [] (with_devinfo [] s)))).
  unfold rescan. rewrite bind_gets.
  destruct (@rescan_device_classes (_g_device_classes s0) (_g_device_classes s0))
    with (serialNumbers := @nil string) (s := s0)
    as [sn [s1 [Hrun [Hsame Hown]]]].
  { intros dc Hdc. split; [exact Hdc | apply (Hwb dc Hdc)]. }
  { intros x []. }
  rewrite (@bind_ok _ _ _ _ _ _ _ Hrun). rewrite !bind_gets.
  destruct Hsame as [Hd1 [Hr1 [Ha1 [Hi1 [Hw1 [Hb1 _]]]]]].
  cbv zeta.
  set (filtered := filter_lists (whitelist s1) (blacklist s1) sn).
  assert (Hsn : forall x, In x (sorted filtered) -> In x sn).
  { intros x Hx. apply (proj1 (In_sorted x filtered)) in Hx. unfold filtered in Hx.
    apply filter_lists_spec in Hx. tauto. }
  destruct (@rescan_find_all filtered (sorted filtered)) with (s := s1)
    as [s2 [Hrun2 [Hinv [Hcls [Hw2 [Hb2 Ha2]]]]]].
  { intros x Hx. now apply In_sorted. }
  { intros x dc Hx Hdc. destruct (Hown x (Hsn x Hx)) as [dc' [Hdc' Hin]].
    assert (dc' = dc) by congruence. subst dc'. apply (Hwb dc Hin). }
  { intros key. rewrite Hd1. simpl. intros []. }
  rewrite (@bind_ok _ _ _ _ _ _ _ Hrun2). rewrite bind_gets.
  rewrite for_each_skip.
  2:{ intros x Hx. apply Hinv in Hx. destruct Hx as [Hx _].
      unfold rescan_forget. apply mem_string_In in Hx. rewrite Hx. reflexivity. }
  exists s2. split; [reflexivity|].
  split; [rewrite Ha2, Ha1; reflexivity|].
  split; [rewrite Hw2, Hw1; reflexivity|].
  split; [rewrite Hb2, Hb1; reflexivity|].
  intros key Hin. destruct (Hinv key Hin) as [Hf Hrc].
  unfold filtered in Hf. apply filter_lists_spec in Hf.
  destruct Hf as [Hsn' [Hwl Hbl]]. rewrite Hw1 in Hwl. rewrite Hb1 in Hbl.
  split; [exact Hrc|]. split.
  - rewrite Hcls. destruct (Hown key Hsn') as [dc [Hdc _]]. congruence.
  - split; [exact Hbl | exact Hwl].
Qed.

Lemma well_behaved_broken_scan : well_behaved Fixture.broken_scan.
Proof.
  split.
  - intros e [= <-]. reflexivity.
  - intros serialNumber e. discriminate.
Qed.

Lemma well_behaved_picky : well_behaved Fixture.picky.
Proof.
  split.
  - intros e. discriminate.
  - intros serialNumber e. unfold Fixture.picky. simpl.
    destruct (String.eqb serialNumber "B"); [|discriminate].
    intros [= <-]. reflexivity.
Qed.

Lemma init_builds_registry_witness :
  exists s',
    init 0 Fixture.faulty_plugins = (Ok tt, s')
    /\ _acquirer s' = []
    /\ whitelist s' = []
    /\ blacklist s' = []
    /\ forall key,
         In key (Dict.keys (_devinfo s')) ->
         Dict.get (_refcount s') key = Some 0
         /\ Dict.get (_g_device_id_class s') key <> None
         /\ ~ In key []
         /\ (@nil string = [] \/ In key []).
Proof.
  apply (@init_builds_registry 0 Fixture.faulty_plugins).
  intros dc [<-|[<-|[]]].
  - exact well_behaved_broken_scan.
  - exact well_behaved_picky.
Defined.

(** With these plugins [Devices()] logs the failed [rescan] and the failed
    [adopt], and registers the one device it could adopt. *)
Example init_with_faulty_plugins :
  fst (init 0 Fixture.faulty_plugins) = Ok tt
  /\ Dict.keys (_devinfo (snd (init 0 Fixture.faulty_plugins))) = ["A"]
  /\ daemon_log (snd (init 0 Fixture.faulty_plugins))
     = [log_rescanning_failed "broken"; log_rescan_found "A";
        log_rescan_failed_connecting "B"].
Proof. repeat split. Qed.

(** A [KeyboardInterrupt] in a plugin's [rescan] is not an [Exception]: it
    leaves [Devices()], nothing is logged and the plugin behind is not asked. *)
Example init_interrupted_by_plugin :
  fst (init 0 Fixture.interrupted_plugins)
  = Raise (PluginBaseException "KeyboardInterrupt")
  /\ Dict.keys (_devinfo (snd (init 0 Fixture.interrupted_plugins))) = []
  /\ _g_device_id_class (snd (init 0 Fixture.interrupted_plugins)) = []
  /\ daemon_log (snd (init 0 Fixture.interrupted_plugins)) = [].
Proof. repeat split. Qed.

(** ** [release_all] with one lease per device *)

(** The loop of [release_all] over the devices of an acquirer whose entry is
    [held], every device in it carrying a single timestamp. *)
Lemma release_each_single now a held :
  forall s,
    Dict.get (_acquirer s) a = Some held ->
    Dict.wf held ->
    held <> [] ->
    (forall key stamps, In (key, stamps) held ->
       length stamps = 1%nat
       /\ exists rc, Dict.get (_refcount s) key = Some rc /\ rc <> 0) ->
    exists s',
      for_each (Dict.keys held) (fun key => _wolock_release now key (Some a)) s
      = (Ok tt, s')
      /\ Dict.get (_acquirer s') a = None
      /\ (forall a', a' <> a -> Dict.get (_acquirer s') a' = Dict.get (_acquirer s) a')
      /\ (forall key rc, In key (Dict.keys held) ->
            Dict.get (_refcount s) key = Some rc ->
            Dict.get (_refcount s') key = Some (rc - 1))
      /\ (forall key, ~ In key (Dict.keys held) ->
            Dict.get (_refcount s') key = Dict.get (_refcount s) key)
      /\ _devinfo s' = _devinfo s /\ _infos s' = _infos s.
Proof.
  induction held as [|[k st] rest IH]; intros s Ha Hwf Hne Hall; [contradiction|].
  unfold Dict.wf in Hwf. simpl in Hwf. inversion Hwf as [|? ? Hnotin Hwf']; subst.
  destruct (Hall k st (or_introl eq_refl)) as [Hlen [rc [Hrc Hnz]]].
  destruct st as [|t [|t' st]]; try discriminate. clear Hlen.
  assert (Hk : Dict.get ((k, [t]) :: rest) k = Some [t])
    by (simpl; now rewrite String.eqb_refl).
  pose proof (@wolock_release_run now k (Some a) a s rc ((k, [t]) :: rest) t []
                Hrc Hnz (or_introl eq_refl) Ha Hk) as Hrun.
  assert (Hpop : ledger_pop (_acquirer s) a k ((k, [t]) :: rest) [t]
                 = match rest with
                   | [] => Dict.del (_acquirer s) a
                   | _ => Dict.set (_acquirer s) a rest
                   end).
  { unfold ledger_pop. simpl. rewrite String.eqb_refl.
    rewrite (del_not_in rest k Hnotin). destruct rest; reflexivity. }
  rewrite Hpop in Hrun. clear Hpop.
  simpl Dict.keys. simpl for_each. rewrite (@bind_ok _ _ _ _ _ _ _ Hrun).
  destruct rest as [|e rest'].
  - simpl. eexists. split; [reflexivity|]. simpl.
    split; [apply get_del_same|].
    split; [intros a' Hne'; apply get_del_other; congruence|].
    split; [|split; [|split; reflexivity]].
    + intros key rc' [<-|[]] Hrc'. rewrite get_set_same. congruence.
    + intros key Hnin. apply get_set_other. intros ->. apply Hnin. now left.
  - match type of Hrun with _ = (_, ?st) => set (s1 := st) in * end.
    destruct (IH s1) as [s' [Hrun' [Hgone [Hothers [Hdec [Hsame [Hdi Hin]]]]]]].
    + simpl. apply get_set_same.
    + exact Hwf'.
    + discriminate.
    + intros key stamps Hks.
      destruct (Hall key stamps (or_intror Hks)) as [Hlen [rc' [Hrc' Hnz']]].
      split; [exact Hlen|]. exists rc'. split; [|exact Hnz'].
      simpl. rewrite get_set_other; [exact Hrc'|].
      intros ->. apply Hnotin. apply (in_map fst) in Hks. exact Hks.
    + exists s'. split; [exact Hrun'|]. split; [exact Hgone|].
      split.
      { intros a' Hne'. rewrite (Hothers a' Hne'). simpl.
        apply get_set_other. congruence. }
      split.
      { intros key rc' [<-|Hkey] Hrc'.
        - rewrite (Hsame k Hnotin). simpl. rewrite get_set_same. congruence.
        - apply Hdec; [exact Hkey|]. simpl. rewrite get_set_other; [exact Hrc'|].
          intros ->. contradiction. }
      split.
      { intros key Hnin. rewrite Hsame by (intros Hc; apply Hnin; now right).
        simpl. apply get_set_other. intros ->. apply Hnin. now left. }
      split; [rewrite Hdi | rewrite Hin]; reflexivity.
Qed.

(** X13: when every device an acquirer holds carries a single lease of that
    acquirer, and is registered with a lease count other than zero,
    [release_all] returns normally, the acquirer is gone from the ledger and
    from what [acquirers] lists, each of those devices has one lease less,
    and nothing else has changed: the other acquirers, the counts of the
    other devices and the two indexes. *)
Theorem release_all_single_leases (now : timestamp) (s : State) (a : string)
    (held : dict string (list timestamp)) :
  Dict.get (_acquirer s) a = Some held ->
  Dict.wf held ->
  held <> [] ->
  (forall key stamps, In (key, stamps) held ->
     length stamps = 1%nat
     /\ exists rc, Dict.get (_refcount s) key = Some rc /\ rc <> 0) ->
  exists s',
    release_all now a s = (Ok tt, s')
    /\ Dict.get (_acquirer s') a = None
    /\ (forall listed, fst (acquirers s') = Ok listed -> ~ In a listed)
    /\ (forall a', a' <> a -> Dict.get (_acquirer s') a' = Dict.get (_acquirer s) a')
    /\ (forall key rc, In key (Dict.keys held) ->
          Dict.get (_refcount s) key = Some rc ->
          Dict.get (_refcount s') key = Some (rc - 1))
    /\ (forall key, ~ In key (Dict.keys held) ->
          Dict.get (_refcount s') key = Dict.get (_refcount s) key)
    /\ _devinfo s' = _devinfo s /\ _infos s' = _infos s.
Proof.
  intros Ha Hwf Hne Hall.
  destruct (release_each_single now a s Ha Hwf Hne Hall)
    as [s' [Hrun [Hgone Hrest]]].
  exists s'. split.
  - unfold release_all, Dict.mem. rewrite bind_gets, Ha. simpl negb.
    unfold raise_if. unfold bind at 1, ret at 1. rewrite bind_gets.
    rewrite Ha. unfold bind at 1, subscript at 1, ret at 1. exact Hrun.
  - split; [exact Hgone|]. split; [|exact Hrest].
    intros listed [= <-] Hin. apply In_sorted, get_in_keys in Hin. contradiction.
Qed.

Lemma release_all_single_leases_witness :
  exists s',
    release_all 30 "a" Fixture.leased_once = (Ok tt, s')
    /\ Dict.get (_acquirer s') "a" = None
    /\ Dict.get (_refcount s') "X" = Some 0.
Proof.
  destruct (@release_all_single_leases 30 Fixture.leased_once "a" [("X", [10])])
    as [s' [Hrun [Hgone [_ [_ [Hdec _]]]]]].
  - reflexivity.
  - unfold Dict.wf. simpl. constructor; [simpl; tauto | constructor].
  - discriminate.
  - intros key stamps [[= <- <-]|[]]. split; [reflexivity|].
    exists 1. split; [reflexivity | discriminate].
  - exists s'. split; [exact Hrun|]. split; [exact Hgone|].
    apply (Hdec "X" 1); [left|]; reflexivity.
Defined.

(** ** Devices that are still there *)

(** What the plugins report ends up in the set [rescan] collects. *)
Lemma rescan_device_class_collects serialNumbers dc s serialNumbers' s' :
  rescan_device_class serialNumbers dc s = (Ok serialNumbers', s') ->
  (forall x, In x serialNumbers -> In x serialNumbers')
  /\ (forall ids x, dc_rescan dc = Ok ids -> In x ids -> In x serialNumbers').
Proof.
  unfold rescan_device_class. unfold bind at 1, try_except at 1, lift at 1.
  match goal with
  | |- context [for_fold _ _ ?body] => set (B := body)
  end.
  assert (HB : forall sn x s0 r s1, B sn x s0 = (Ok r, s1) -> r = set_add x sn).
  { intros sn x s0 r s1. unfold B. unfold bind at 1.
    match goal with
    | |- (let (_, _) := ?m in _) = _ -> _ => destruct m as [[[]|e] s2]
    end; [|discriminate].
    run_method. intros [= <- _]. reflexivity. }
  assert (Hfold : forall ids sn s0 sn' s1,
             for_fold ids sn B s0 = (Ok sn', s1) ->
             forall x, In x sn \/ In x ids -> In x sn').
  { induction ids as [|y ids IH]; intros sn s0 sn' s1; simpl.
    - intros [= <- _] x [Hx|[]]. exact Hx.
    - unfold bind at 1. destruct (B sn y s0) as [[r|e] s2] eqn:Ey; [|discriminate].
      apply HB in Ey. subst r. intros Hrun x Hx.
      apply (IH _ _ _ _ Hrun). rewrite In_set_add.
      destruct Hx as [Hx|[<-|Hx]]; auto. }
  destruct (dc_rescan dc) as [ids|e].
  - intros Hrun. split.
    + intros x Hx. apply (Hfold _ _ _ _ _ Hrun). now left.
    + intros ids' x [= <-] Hx. apply (Hfold _ _ _ _ _ Hrun). now right.
  - destruct (is_Exception e); [|discriminate].
    run_method. intros [= <- _]. split; [auto | discriminate].
Qed.

Lemma rescan_device_classes_collects dcs :
  forall serialNumbers s serialNumbers' s',
    for_fold dcs serialNumbers rescan_device_class s = (Ok serialNumbers', s') ->
    (forall x, In x serialNumbers -> In x serialNumbers')
    /\ (forall dc ids x,
          In dc dcs -> dc_rescan dc = Ok ids -> In x ids -> In x serialNumbers').
Proof.
  induction dcs as [|dc0 dcs IH]; intros sn s sn' s'; simpl.
  - intros [= <- _]. split; [auto | intros ? ? ? []].
  - unfold bind at 1.
    destruct (rescan_device_class sn dc0 s) as [[sn1|e] s1] eqn:E1; [|discriminate].
    intros Hrun. destruct (rescan_device_class_collects _ _ _ E1) as [Hk1 Hc1].
    destruct (IH _ _ _ _ Hrun) as [Hk2 Hc2]. split.
    + auto.
    + intros dc ids x [<-|Hin] Hids Hx; eauto.
Qed.

(** The loop that finds new devices returns and leaves the registered ones
    alone, when the plugins of the identifiers it goes through return from
    [adopt] or raise an [Exception]. *)
Lemma rescan_find_all_keeps serialNumbers :
  forall s,
    (forall x dc, In x serialNumbers ->
       Dict.get (_g_device_id_class s) x = Some dc ->
       raises_only_Exception (adopt dc x)) ->
    exists s',
      for_each serialNumbers rescan_find_new s = (Ok tt, s')
      /\ (forall key, Dict.get (_devinfo s) key <> None ->
            Dict.get (_devinfo s') key = Dict.get (_devinfo s) key
            /\ Dict.get (_refcount s') key = Dict.get (_refcount s) key)
      /\ (forall key, In key (Dict.keys (_devinfo s')) ->
            In key (Dict.keys (_devinfo s)) \/ In key serialNumbers)
      /\ _acquirer s' = _acquirer s.
Proof.
  induction serialNumbers as [|x l IH]; intros s Hadopt; simpl.
  - exists s. repeat split; auto.
  - destruct (@rescan_find_new_step x s (fun dc => Hadopt x dc (or_introl eq_refl)))
      as [s1 [Hrun [Hcls [_ [_ [Hacq Hreg]]]]]].
    rewrite (@bind_ok _ _ _ _ _ _ _ Hrun).
    destruct (IH s1) as [s' [Hrest [Hkeep [Hkeys Hacq']]]].
    { intros y dc Hy. rewrite Hcls. apply Hadopt. now right. }
    exists s'. split; [exact Hrest|].
    destruct Hreg as [[Hd Hr]|[v [Hd [Hr Hnone]]]].
    + rewrite Hd, Hr in *. split; [exact Hkeep|]. split; [|congruence].
      intros key Hin. destruct (Hkeys key Hin); auto.
    + split; [|split; [|congruence]].
      * intros key Hkey.
        assert (Hne : x <> key) by (intros ->; contradiction).
        destruct (Hkeep key) as [Hk1 Hk2].
        { rewrite Hd, get_set_other by assumption. exact Hkey. }
        rewrite Hk1, Hk2, Hd, Hr. split; now apply get_set_other.
      * intros key Hin. destruct (Hkeys key Hin) as [Hk|Hk]; [|auto].
        rewrite Hd in Hk. apply in_keys_set in Hk. destruct Hk as [->|Hk]; auto.
Qed.

(** X14: when every plugin's [rescan] and [adopt] either return or raise an
    exception that derives from [Exception], and every registered device is
    still reported by a plugin whose [rescan] returns, is not on the
    blacklist and is on the whitelist if there is one, [rescan] returns
    normally, removes nothing, and leaves the entry, the lease count and
    the leases of every such device as they were. *)
Theorem rescan_keeps_present_devices (now : timestamp) (s : State) :
  (forall dc, In dc (_g_device_classes s) -> well_behaved dc) ->
  (forall key,
      In key (Dict.keys (_devinfo s)) ->
      (exists dc ids,
          In dc (_g_device_classes s) /\ dc_rescan dc = Ok ids /\ In key ids)
      /\ ~ In key (blacklist s)
      /\ (whitelist s = [] \/ In key (whitelist s))) ->
  exists s',
    rescan now s = (Ok tt, s')
    /\ _acquirer s' = _acquirer s
    /\ forall key,
         In key (Dict.keys (_devinfo s)) ->
         Dict.get (_devinfo s') key = Dict.get (_devinfo s) key
         /\ Dict.get (_refcount s') key = Dict.get (_refcount s) key.
Proof.
  intros Hwb Hpresent. unfold rescan. rewrite bind_gets.
  destruct (@rescan_device_classes (_g_device_classes s) (_g_device_classes s))
    with (serialNumbers := @nil string) (s := s)
    as [sn [s1 [Hrun [Hsame Hown]]]].
  { intros dc Hdc. split; [exact Hdc | apply (Hwb dc Hdc)]. }
  { intros x []. }
  destruct (rescan_device_classes_collects _ _ _ Hrun) as [_ Hcollect].
  rewrite (@bind_ok _ _ _ _ _ _ _ Hrun). rewrite !bind_gets. cbv zeta.
  destruct Hsame as [Hd1 [Hr1 [Ha1 [Hi1 [Hw1 [Hb1 _]]]]]].
  set (filtered := filter_lists (whitelist s1) (blacklist s1) sn).
  assert (Hfiltered : forall key, In key (Dict.keys (_devinfo s)) -> In key filtered).
  { intros key Hkey.
    destruct (Hpresent key Hkey) as [[dc [ids [Hdc [Hids Hin]]]] [Hbl Hwl]].
    apply filter_lists_spec. rewrite Hw1, Hb1. split; [|auto].
    eapply Hcollect; eassumption. }
  destruct (@rescan_find_all_keeps (sorted filtered) s1)
    as [s2 [Hrun2 [Hkeep [Hkeys Hacq]]]].
  { intros x dc Hx Hdc. apply (proj1 (In_sorted x filtered)) in Hx.
    unfold filtered in Hx. apply filter_lists_spec in Hx. destruct Hx as [Hx _].
    destruct (Hown x Hx) as [dc' [Hdc' Hin]].
    assert (dc' = dc) by congruence. subst dc'. apply (Hwb dc Hin). }
  rewrite (@bind_ok _ _ _ _ _ _ _ Hrun2). rewrite bind_gets.
  rewrite for_each_skip.
  2:{ intros x Hx. unfold rescan_forget.
      assert (Hin : In x filtered).
      { destruct (Hkeys x Hx) as [Hold|Hnew].
        - apply Hfiltered. now rewrite <- Hd1.
        - now apply In_sorted. }
      apply mem_string_In in Hin. rewrite Hin. reflexivity. }
  exists s2. split; [reflexivity|]. split; [congruence|].
  intros key Hkey. rewrite <- Hd1, <- Hr1. apply Hkeep.
  apply get_in_keys. now rewrite Hd1.
Qed.

Lemma well_behaved_phones : well_behaved Fixture.phones.
Proof. split; [intros e | intros serialNumber e]; discriminate. Qed.

Lemma rescan_keeps_present_devices_witness :
  exists s',
    rescan 40 Fixture.leased_twice = (Ok tt, s')
    /\ _acquirer s' = _acquirer Fixture.leased_twice
    /\ forall key,
         In key (Dict.keys (_devinfo Fixture.leased_twice)) ->
         Dict.get (_devinfo s') key = Dict.get (_devinfo Fixture.leased_twice) key
         /\ Dict.get (_refcount s') key = Dict.get (_refcount Fixture.leased_twice) key.
Proof.
  apply (@rescan_keeps_present_devices 40 Fixture.leased_twice).
  - intros dc [<-|[]]. exact well_behaved_phones.
  - intros key. change (Dict.keys (_devinfo Fixture.leased_twice)) with ["X"].
    intros [<-|[]]. split; [|split].
    + exists Fixture.phones, ["X"]. repeat split; left; reflexivity.
    + intros [].
    + left. reflexivity.
Defined.

(** ** Who owns an identifier after [rescan] *)

(** After the turn of one plugin in [rescan], the identifiers it reports are
    its own and the others keep their plugin. *)
Lemma rescan_device_class_owner serialNumbers dc s serialNumbers' s' :
  rescan_device_class serialNumbers dc s = (Ok serialNumbers', s') ->
  (forall ids x, dc_rescan dc = Ok ids -> In x ids ->
                 Dict.get (_g_device_id_class s') x = Some dc)
  /\ (forall x, (forall ids, dc_rescan dc = Ok ids -> ~ In x ids) ->
                Dict.get (_g_device_id_class s') x = Dict.get (_g_device_id_class s) x).
Proof.
  unfold rescan_device_class. unfold bind at 1, try_except at 1, lift at 1.
  match goal with
  | |- context [for_fold _ _ ?body] => set (B := body)
  end.
  assert (HB : forall sn y s0 r s1,
             B sn y s0 = (Ok r, s1) ->
             _g_device_id_class s1 = Dict.set (_g_device_id_class s0) y dc).
  { intros sn y s0 r s1. unfold B. unfold bind at 1.
    assert (Hif : forall m : M unit,
               (forall s2, _g_device_id_class (snd (m s2)) = _g_device_id_class s2) ->
               (let (r0, s'0) := m s0 in
                match r0 with
                | Ok a =>
                    (fun _ : unit =>
                       modify
                         (fun s : State =>
                            with_g_device_id_class
                              (Dict.set (_g_device_id_class s) y dc) s) ;;;
                       ret (set_add y sn)) a s'0
                | Raise e => (Raise e, s'0)
                end) = (Ok r, s1) ->
               _g_device_id_class s1 = Dict.set (_g_device_id_class s0) y dc).
    { intros m Hm. specialize (Hm s0).
      destruct (m s0) as [[[]|e] s2]; [|discriminate].
      run_method. simpl in Hm. intros [= _ <-]. simpl. now rewrite Hm. }
    apply Hif. intros s2.
    destruct (mem_string y sn); [|reflexivity].
    run_method. destruct (Dict.get (_g_device_id_class s2) y) as [other|];
      [|reflexivity].
    simpl. destruct (negb (Nat.eqb (obj_id other) (obj_id dc))); reflexivity. }
  assert (Hfold : forall ids sn s0 sn' s1,
             for_fold ids sn B s0 = (Ok sn', s1) ->
             forall x,
               (In x ids -> Dict.get (_g_device_id_class s1) x = Some dc)
               /\ (~ In x ids ->
                   Dict.get (_g_device_id_class s1) x
                   = Dict.get (_g_device_id_class s0) x)).
  { induction ids as [|y ids IH]; intros sn s0 sn' s1; simpl.
    - intros [= _ <-] x. split; [intros [] | reflexivity].
    - unfold bind at 1. destruct (B sn y s0) as [[r|e] s2] eqn:Ey; [|discriminate].
      apply HB in Ey. intros Hrun x.
      destruct (IH _ _ _ _ Hrun x) as [Hin Hout].
      destruct (in_dec string_dec x ids) as [Hx|Hx].
      + split; [auto | tauto].
      + rewrite (Hout Hx), Ey. split.
        * intros [->|Hx']; [apply get_set_same | contradiction].
        * intros Hn. apply get_set_other. intros ->. apply Hn. now left. }
  destruct (dc_rescan dc) as [ids|e].
  - intros Hrun. split.
    + intros ids' x [= <-] Hx. now apply (Hfold _ _ _ _ _ Hrun x).
    + intros x Hx. apply (Hfold _ _ _ _ _ Hrun x). now apply Hx.
  - destruct (is_Exception e); [|discriminate].
    run_method. intros [= _ <-]. split; [discriminate | reflexivity].
Qed.

Lemma rescan_device_classes_owner front dc back ids x :
  dc_rescan dc = Ok ids ->
  In x ids ->
  (forall dc' ids', In dc' back -> dc_rescan dc' = Ok ids' -> ~ In x ids') ->
  forall serialNumbers s serialNumbers' s',
    for_fold (front ++ dc :: back) serialNumbers rescan_device_class s
    = (Ok serialNumbers', s') ->
    Dict.get (_g_device_id_class s') x = Some dc.
Proof.
  intros Hids Hx Hback.
  assert (Hrest : forall sn s sn' s',
             for_fold back sn rescan_device_class s = (Ok sn', s') ->
             Dict.get (_g_device_id_class s') x = Dict.get (_g_device_id_class s) x).
  { clear Hids Hx. induction back as [|dc0 back IH]; intros sn s sn' s'; simpl.
    - intros [= _ <-]. reflexivity.
    - unfold bind at 1.
      destruct (rescan_device_class sn dc0 s) as [[sn1|e] s1] eqn:E1; [|discriminate].
      intros Hrun.
      rewrite (IH (fun d i Hd => Hback d i (or_intror Hd)) _ _ _ _ Hrun).
      apply (proj2 (rescan_device_class_owner _ _ _ E1)).
      intros ids' Hi. apply (Hback dc0 ids'); [now left | exact Hi]. }
  induction front as [|dc0 front IH]; intros sn s sn' s'; simpl.
  - unfold bind at 1.
    destruct (rescan_device_class sn dc s) as [[sn1|e] s1] eqn:E1; [|discriminate].
    intros Hrun. rewrite (Hrest _ _ _ _ Hrun).
    apply (proj1 (rescan_device_class_owner _ _ _ E1) ids x Hids Hx).
  - unfold bind at 1.
    destruct (rescan_device_class sn dc0 s) as [[sn1|e] s1]; [|discriminate].
    apply IH.
Qed.

Lemma reads_only_lift {A} (r : Result A) : reads_only (lift r).
Proof. intro s; reflexivity. Qed.

Lemma preserves_try_except {A} P (m : M A) (h : exn -> M A) :
  preserves P m -> (forall e, preserves P (h e)) -> preserves P (try_except m h).
Proof.
  intros Hm Hh s Hs. unfold try_except. specialize (Hm s Hs).
  destruct (m s) as [[a|e] s0]; simpl in *; auto.
  destruct (is_Exception e); simpl; auto. now apply Hh.
Qed.

(** The step that finds a new device keeps what none of its assignments can
    break, whatever [adopt] does. *)
Lemma rescan_find_new_preserves (P : State -> Prop) serialNumber :
  (forall v s, P s -> P (with_devinfo v s)) ->
  (forall v s, P s -> P (with_refcount v s)) ->
  (forall v s, P s -> P (with_infos v s)) ->
  (forall v s, P s -> P (with_log v s)) ->
  preserves P (rescan_find_new serialNumber).
Proof.
  intros Hd Hr Hi Hl.
  assert (Hlog : forall e, preserves P (daemon_log_line e)).
  { intros e s Hs. now apply Hl. }
  unfold rescan_find_new.
  apply preserves_bind; [apply preserves_reads_only, reads_only_gets | intros di].
  destruct (Dict.mem di serialNumber); [apply Hlog|].
  apply preserves_try_except; [|intros e; apply Hlog].
  apply preserves_bind; [|intros _; apply Hlog].
  unfold _wolock_add.
  apply preserves_bind; [apply preserves_reads_only, reads_only_gets | intros cls].
  apply preserves_bind; [apply preserves_reads_only, reads_only_subscript | intros dc].
  apply preserves_bind; [apply preserves_reads_only, reads_only_lift | intros [d i]].
  apply preserves_bind; [intros s Hs; now apply Hd | intros _].
  apply preserves_bind; [intros s Hs; now apply Hr | intros _].
  intros s Hs. now apply Hi.
Qed.

(** [_wolock_remove] keeps what no assignment of it can break. *)
Lemma wolock_remove_preserves (P : State -> Prop) now serialNumber :
  (forall v s, P s -> P (with_devinfo v s)) ->
  (forall v s, P s -> P (with_refcount v s)) ->
  (forall v s, P s -> P (with_infos v s)) ->
  (forall v s, P s -> P (with_acquirer v s)) ->
  (forall v s, P s -> P (with_log v s)) ->
  preserves P (_wolock_remove now serialNumber).
Proof.
  intros Hd Hr Hi Ha Hl.
  assert (Hdel : forall K V (E : EqKey K) (k : K) (proj : State -> dict K V) upd,
             (forall v s, P s -> P (upd v s)) -> preserves P (del_item k proj upd)).
  { intros K V E k proj upd Hupd. unfold del_item.
    apply preserves_bind; [apply preserves_reads_only, reads_only_gets | intros d].
    destruct (Dict.mem d k); [|apply preserves_reads_only, reads_only_raise].
    intros s Hs. now apply Hupd. }
  assert (Hlog : forall e, preserves P (daemon_log_line e)).
  { intros e s Hs. now apply Hl. }
  unfold _wolock_remove.
  apply preserves_bind; [apply preserves_reads_only, reads_only_validate | intros _].
  apply preserves_bind; [apply preserves_reads_only, reads_only_gets | intros rcs].
  apply preserves_bind; [apply preserves_reads_only, reads_only_subscript | intros rc].
  apply preserves_bind.
  { destruct (rc >? 0); [|intros s Hs; exact Hs].
    intros s Hs.
    destruct (wolock_release_cases now serialNumber None s)
      as [->|[a [rc' [held [t [stamps [_ [_ [_ ->]]]]]]]]]; [exact Hs|].
    simpl. apply Hl, Ha, Hr, Hs. }
  intros _.
  apply preserves_bind; [apply preserves_reads_only, reads_only_gets | intros di].
  apply preserves_bind; [apply preserves_reads_only, reads_only_subscript | intros [d i]].
  apply preserves_bind; [apply preserves_reads_only, reads_only_gets | intros cls].
  apply preserves_bind; [apply preserves_reads_only, reads_only_subscript | intros dc].
  apply preserves_bind; [apply preserves_reads_only, reads_only_lift | intros _].
  apply preserves_bind; [apply preserves_reads_only, reads_only_gets | intros di'].
  apply preserves_bind;
    [apply preserves_reads_only, reads_only_subscript | intros [d' i']].
  apply preserves_bind; [apply Hdel, Hd | intros _].
  apply preserves_bind; [apply Hdel, Hr | intros _].
  apply preserves_bind; [apply Hdel, Hi | intros _].
  apply Hlog.
Qed.

(** X15: when several plugins report the same identifier, and the [rescan]
    of every plugin either returns or raises an exception that derives from
    [Exception], [rescan] leaves the identifier to the last of them in
    [_g_device_classes]: whatever becomes of the pass afterwards, even if it
    raises while adopting or forgetting a device, the owner recorded for the
    identifier is the last plugin whose [rescan] returned it. *)
Theorem rescan_last_plugin_owns (now : timestamp) (s : State)
    (front back : list DeviceClass) (dc : DeviceClass)
    (ids : list string) (x : string) :
  (forall dc', In dc' (_g_device_classes s) ->
               raises_only_Exception (dc_rescan dc')) ->
  _g_device_classes s = front ++ dc :: back ->
  dc_rescan dc = Ok ids ->
  In x ids ->
  (forall dc' ids', In dc' back -> dc_rescan dc' = Ok ids' -> ~ In x ids') ->
  Dict.get (_g_device_id_class (snd (rescan now s))) x = Some dc.
Proof.
  intros Hexc Hdcs Hids Hx Hback. unfold rescan. rewrite bind_gets.
  destruct (@rescan_device_classes (_g_device_classes s) (_g_device_classes s))
    with (serialNumbers := @nil string) (s := s)
    as [sn [s1 [Hrun _]]].
  { intros dc' Hdc'. split; [exact Hdc' | apply (Hexc dc' Hdc')]. }
  { intros y []. }
  rewrite (@bind_ok _ _ _ _ _ _ _ Hrun). rewrite !bind_gets. cbv zeta.
  rewrite Hdcs in Hrun.
  pose proof (@rescan_device_classes_owner front dc back ids x Hids Hx Hback
                [] s sn s1 Hrun) as Hown.
  set (P := fun s' : State => Dict.get (_g_device_id_class s') x = Some dc).
  assert (HP : preserves P
                 (for_each
                    (sorted (filter_lists (whitelist s1) (blacklist s1) sn))
                    rescan_find_new ;;;
                  di <- gets _devinfo ;;
                  for_each (Dict.keys di)
                    (rescan_forget now
                       (filter_lists (whitelist s1) (blacklist s1) sn)))).
  { apply preserves_bind.
    - apply preserves_for_each. intros y.
      apply rescan_find_new_preserves; intros v s0 Hs0; exact Hs0.
    - intros _. apply preserves_bind;
        [apply preserves_reads_only, reads_only_gets | intros di].
      apply preserves_for_each. intros y. unfold rescan_forget.
      destruct (negb (mem_string y (filter_lists (whitelist s1) (blacklist s1) sn)));
        [|intros s0 Hs0; exact Hs0].
      apply preserves_bind; [|intros _ s0 Hs0; exact Hs0].
      apply wolock_remove_preserves; intros v s0 Hs0; exact Hs0. }
  apply (HP s1 Hown).
Qed.

Lemma rescan_last_plugin_owns_witness :
  Dict.get (_g_device_id_class (snd (rescan 5 Fixture.colliding_plugins))) "A"
  = Some Fixture.tablets_seen
  /\ In (log_rescan_collision "A" "tablets" "phones")
       (daemon_log (snd (rescan 5 Fixture.colliding_plugins))).
Proof.
  split.
  - apply (@rescan_last_plugin_owns 5 Fixture.colliding_plugins
             [Fixture.both_seen] [Fixture.phones] Fixture.tablets_seen ["A"] "A").
    + intros dc' [<-|[<-|[<-|[]]]] e; discriminate.
    + reflexivity.
    + reflexivity.
    + left. reflexivity.
    + intros dc' ids' [<-|[]] [= <-] [H|[]]. discriminate.
  - left. reflexivity.
Defined.

Lemma acquire_release_preserve_lease_invariant_witness :
  ledger_ok
    (snd (acquire literal_re_match 1 false (Some "a") [("id", "X")] 10 0
            Fixture.started))
  /\ ledger_ok (snd (release 30 "X" (Some "a") Fixture.started))
  /\ ledger_ok (snd (release_all 30 "a" Fixture.started)).
Proof.
  assert (Hok : ledger_ok Fixture.started).
  { split; [constructor|].
    intros key rc.
    change (_refcount Fixture.started) with [("X", 0)].
    change (_acquirer Fixture.started)
      with (@nil (string * dict string (list timestamp))).
    simpl. destruct (String.eqb key "X"); [|discriminate].
    intros [= <-]. reflexivity. }
  destruct (acquire_release_preserve_lease_invariant literal_re_match)
    as [Hacq [Hrel Hall]].
  split; [|split].
  - apply (Hacq 1%nat false (Some "a") [("id", "X")] 10 0%nat Fixture.started Hok).
  - apply (Hrel 30 "X" (Some "a") Fixture.started Hok).
  - apply (Hall 30 "a" Fixture.started Hok).
Defined.
